(** * A sliding-window rate limiter: [ratelimiter/_sync.py]

    Shallow embedding of the class [RateLimiter] and proofs about its
    admission check ([__enter__]), its bookkeeping ([__exit__]), its
    constructor, its [consume] property and its decorator form.

    Conventions of the embedding.
    - Timestamps and [period] are integers: seconds counted in ticks of a
      fixed-point clock.  [max_calls] and [consume] are integers.
    - [consume / max_calls] is the true division of two integers: the
      binary64 float nearest to the quotient (ties to even), or
      [OverflowError] beyond the range of floats; [math.ceil] of that float
      is an integer again.
    - The deque [calls] is a list, oldest entry at the head.
    - [time.time()] is an oracle: the n-th read returns [time_source n].
    - Lock operations, [time.sleep] and the start of the callback thread are
      recorded, in order, in a trace of events.
    - The object given as [callback] carries its truth value, which
      [__enter__] tests before it starts the thread.
    - A call is followed in one thread of control; the bodies of
      [__enter__] and [__exit__] run under [self._lock], so each sees the
      limiter as it is when the lock is taken.  Runs of several threads are
      lists of events tagged with their thread, checked against the
      exclusion that [threading.Lock] gives. *)

From Stdlib Require Import ZArith List Lia String Sorted.
Import ListNotations.
Open Scope Z_scope.

(** ** Exceptions and outcomes *)

Inductive exn : Type :=
| ValueError (msg : string)
| AttributeError (msg : string)
| IndexError (msg : string)
| ZeroDivisionError (msg : string)
| OverflowError (msg : string)
| Raised (tag : nat).          (* any other exception, of a wrapped callable *)

Inductive outcome (A : Type) : Type :=
| Ok (a : A)
| Raise (e : exn).
Arguments Ok {A} a.
Arguments Raise {A} e.

(** ** The limiter object *)

(** The object given as [callback]: a handle on the callable, and its truth
    value ([bool(callback)]; true for a function). *)
Record callback_t : Type := mkCallback {
  cb_handle : nat;
  cb_truthy : bool
}.

Record RateLimiter : Type := mkRateLimiter {
  calls : list Z;                 (* collections.deque(), oldest first *)
  period : Z;
  max_calls : Z;
  callback : option callback_t;
  _consume : Z
}.

Definition set_calls (q : list Z) (s : RateLimiter) : RateLimiter :=
  mkRateLimiter q (period s) (max_calls s) (callback s) (_consume s).

Definition set__consume (v : Z) (s : RateLimiter) : RateLimiter :=
  mkRateLimiter (calls s) (period s) (max_calls s) (callback s) v.

(** ** The world a call runs in *)

Inductive event : Type :=
| LockAcquire                               (* self._lock.__enter__ *)
| LockRelease                               (* self._lock.__exit__ *)
| ThreadStart (cb : callback_t) (arg : Z)   (* Thread(target=cb, args=(arg,)).start() *)
| Sleep (secs : Z).                         (* time.sleep(secs) *)

Record World : Type := mkWorld {
  self : RateLimiter;
  time_source : nat -> Z;
  reads : nat;
  trace : list event
}.

Definition set_self (s : RateLimiter) (w : World) : World :=
  mkWorld s (time_source w) (reads w) (trace w).

Definition boot (s : RateLimiter) (clock : nat -> Z) : World :=
  mkWorld s clock 0%nat [].

(** ** A state-and-exception monad *)

Definition M (A : Type) : Type := World -> outcome A * World.

Definition ret {A} (a : A) : M A := fun w => (Ok a, w).

Definition raise {A} (e : exn) : M A := fun w => (Raise e, w).

Definition bind {A B} (m : M A) (k : A -> M B) : M B :=
  fun w => match m w with
           | (Ok a, w') => k a w'
           | (Raise e, w') => (Raise e, w')
           end.

Declare Scope py_scope.
Delimit Scope py_scope with py.
Notation "x <- m ;; k" := (bind m (fun x => k))
  (at level 100, m at next level, right associativity) : py_scope.
Notation "m ;; k" := (bind m (fun _ => k))
  (at level 100, right associativity) : py_scope.
Open Scope py_scope.

Definition get_self : M RateLimiter := fun w => (Ok (self w), w).

Definition put_self (s : RateLimiter) : M unit := fun w => (Ok tt, set_self s w).

Definition emit (e : event) : M unit :=
  fun w => (Ok tt, mkWorld (self w) (time_source w) (reads w) (trace w ++ [e])).

Definition lift {A} (o : outcome A) : M A := fun w => (o, w).

(** [time.time()] *)
Definition time_time : M Z :=
  fun w => (Ok (time_source w (reads w)),
            mkWorld (self w) (time_source w) (S (reads w)) (trace w)).

(** [time.sleep(secs)] *)
Definition time_sleep (secs : Z) : M unit := emit (Sleep secs).

(** [t = threading.Thread(target=cb, args=(arg,)); t.daemon = True; t.start()] *)
Definition thread_start (cb : callback_t) (arg : Z) : M unit :=
  emit (ThreadStart cb arg).

(** ** The [with] statement

    [with mgr: body] calls [mgr.__enter__()], runs [body], then calls
    [mgr.__exit__] with the exception of [body], if any.  The exception is
    raised again unless [__exit__] returns a true value; when it is
    swallowed, control leaves the block without a value ([None] below).
    When [body] returns [a], the block returns [Some a]. *)

Definition with_ {R A} (enter : M unit) (exit : option exn -> M R)
    (truthy : R -> bool) (body : M A) : M (option A) :=
  enter ;;
  fun w => match body w with
           | (Ok a, w1) => (exit None ;; ret (Some a)) w1
           | (Raise e, w1) =>
               (r <- exit (Some e) ;;
                if truthy r then ret None else raise e) w1
           end.

(** [None] is false. *)
Definition truthy_None (_ : unit) : bool := false.

(** [with self._lock:] on a [threading.Lock]. *)
Definition with_lock {A} (body : M A) : M (option A) :=
  with_ (emit LockAcquire) (fun _ => emit LockRelease) truthy_None body.

(** ** The class *)

(** [consume.setter], as a check of the value to store. *)
Definition consume_check (value : Z) : outcome Z :=
  if value >=? 1 then Ok value
  else Raise (ValueError "Number of calls to consume should be >= 1").

(** [__init__(self, max_calls, period=1.0, callback=None, consume=1)];
    [self.consume = consume] goes through the setter. *)
Definition __init__ (max_calls0 period0 : Z) (callback0 : option callback_t)
    (consume0 : Z) : outcome RateLimiter :=
  if period0 <=? 0 then
    Raise (ValueError "Rate limiting period should be > 0")
  else if max_calls0 <=? 0 then
    Raise (ValueError "Rate limiting number of calls should be > 0")
  else if consume0 <? 1 then
    Raise (ValueError "Number of calls to consume should be >= 1")
  else
    match consume_check consume0 with
    | Ok c => Ok (mkRateLimiter [] period0 max_calls0 callback0 c)
    | Raise e => Raise e
    end.

(** The property [consume]: getter, setter, deleter. *)
Definition consume (s : RateLimiter) : Z := _consume s.

Definition consume_getter : M Z :=
  s <- get_self ;; ret (consume s).

Definition consume_setter (value : Z) : M unit :=
  s <- get_self ;;
  c <- lift (consume_check value) ;;
  put_self (set__consume c s).

Definition consume_deleter : M unit :=
  raise (AttributeError "Consume attribute cannot be dereferenced").

(** [self.calls[-1] - self.calls[0] if self.calls else 0], on the deque. *)
Definition timespan_of (q : list Z) : Z :=
  match q with
  | [] => 0
  | oldest :: _ => last q oldest - oldest
  end.

Definition _timespan (s : RateLimiter) : Z := timespan_of (calls s).

(** [x * 2 ** k] for [k >= 0], and [x] otherwise. *)
Definition shl (x k : Z) : Z := x * 2 ^ Z.max 0 k.

(** The integer [f] with [2 ** f <= a / b < 2 ** (f + 1)], for positive
    [a] and [b]. *)
Definition ratio_log2 (a b : Z) : Z :=
  let d := Z.log2 a - Z.log2 b in
  if shl b d <=? shl a (- d) then d else d - 1.

(** The integer nearest to [n / d], the even one on a tie. *)
Definition round_half_even (n d : Z) : Z :=
  let q := n / d in
  let r := n mod d in
  if 2 * r <? d then q
  else if d <? 2 * r then q + 1
  else if Z.even q then q else q + 1.

(** The binary64 float nearest to [a / b], for positive [a] and [b], as
    [(m, e)] for [m * 2 ** e]: 53 bits of mantissa, and exponents from
    [-1074] (subnormal numbers). *)
Definition float_of_ratio (a b : Z) : Z * Z :=
  let e := Z.max (ratio_log2 a b - 52) (- 1074) in
  (round_half_even (shl a (- e)) (shl b e), e).

Definition float_overflows (m e : Z) : bool :=
  (0 <=? e) && (2 ^ 1024 <=? m * 2 ^ e).

(** [math.ceil] of the float [m * 2 ** e]. *)
Definition ceil_of_float (m e : Z) : Z :=
  if 0 <=? e then m * 2 ^ e else - ((- m) / 2 ^ (- e)).

(** [math.ceil(a / b)] on integers [a] and [b]. *)
Definition math_ceil_div (a b : Z) : outcome Z :=
  if b =? 0 then Raise (ZeroDivisionError "division by zero")
  else if a =? 0 then Ok 0
  else
    let (m, e) := float_of_ratio (Z.abs a) (Z.abs b) in
    if float_overflows m e then
      Raise (OverflowError "integer division result too large for a float")
    else Ok (ceil_of_float (Z.sgn a * Z.sgn b * m) e).

Arguments math_ceil_div : simpl never.

(** The blocking branch of [__enter__]. *)
Definition wait_for_slot (s : RateLimiter) : M unit :=
  cycles <- lift (math_ceil_div (consume s) (max_calls s)) ;;
  now <- time_time ;;
  let until := now + cycles * period s - _timespan s in
  match callback s with
  | Some cb => if cb_truthy cb then thread_start cb until else ret tt
  | None => ret tt
  end ;;
  now' <- time_time ;;
  let sleeptime := until - now' in
  if sleeptime >? 0 then time_sleep sleeptime else ret tt.

Definition __enter__ : M unit :=
  with_lock (
    s <- get_self ;;
    if Z.of_nat (List.length (calls s)) + consume s >? max_calls s
    then wait_for_slot s
    else ret tt) ;;
  ret tt.

(** [while self._timespan >= self.period: self.calls.popleft()].  Every
    turn of the loop pops one entry, so the recursion is on the deque;
    [popleft] on an empty deque raises [IndexError]. *)
Fixpoint popleft_while (period0 : Z) (q : list Z) {struct q} : outcome (list Z) :=
  if timespan_of q >=? period0 then
    match q with
    | [] => Raise (IndexError "pop from an empty deque")
    | _ :: q' => popleft_while period0 q'
    end
  else Ok q.

Definition trim_calls : M unit :=
  s <- get_self ;;
  match popleft_while (period s) (calls s) with
  | Ok q => put_self (set_calls q s)
  | Raise e => put_self (set_calls [] s) ;; raise e
  end.

Definition __exit__ (exc : option exn) : M unit :=
  with_lock (
    now <- time_time ;;
    s <- get_self ;;
    let timestamps := repeat now (Z.to_nat (consume s)) in
    put_self (set_calls (calls s ++ timestamps) s) ;;
    trim_calls) ;;
  ret tt.

(** [__call__(self, f)] returns [wrapped], and a call of [wrapped] on
    arguments [args] is [with self: return f(args)].
    [RateLimiter.__exit__] returns [None]. *)
Definition __call__ {Args A} (f : Args -> M A) : Args -> M (option A) :=
  fun args => with_ __enter__ __exit__ truthy_None (f args).

(** ** Notions used in the statements *)

(** The configuration that [__init__] and the setter of [consume] let
    through. *)
Definition configured (s : RateLimiter) : Prop :=
  0 < period s /\ 0 < max_calls s /\ 1 <= consume s.

(** The admission check of [__enter__]. *)
Definition over_capacity (s : RateLimiter) : Prop :=
  Z.of_nat (List.length (calls s)) + consume s > max_calls s.

(** Events that a call added to the trace. *)
Definition events_since (w w' : World) : list event :=
  skipn (List.length (trace w)) (trace w').

Definition notify_events (cb : option callback_t) (until : Z) : list event :=
  match cb with
  | Some c => if cb_truthy c then [ThreadStart c until] else []
  | None => []
  end.

(** [consume / max_calls] can be computed: [max_calls] is not 0 and the
    quotient is within the range of floats. *)
Definition cycles_computed (s : RateLimiter) : Prop :=
  exists cycles : Z, math_ceil_div (consume s) (max_calls s) = Ok cycles.

Definition sleep_events (secs : Z) : list event :=
  if secs >? 0 then [Sleep secs] else [].

(** Whether [self._lock] is held after a trace that starts with the lock
    free. *)
Fixpoint lock_held_from (held : bool) (tr : list event) : bool :=
  match tr with
  | [] => held
  | LockAcquire :: tr' => lock_held_from true tr'
  | LockRelease :: tr' => lock_held_from false tr'
  | _ :: tr' => lock_held_from held tr'
  end.

Definition lock_held (tr : list event) : bool := lock_held_from false tr.

(** Every [Sleep] of the trace happens with the lock free. *)
Definition sleeps_unlocked (tr : list event) : Prop :=
  forall pre secs post, tr = pre ++ Sleep secs :: post -> lock_held pre = false.

(** A run of several threads is a list of events, each with the thread
    that made it. *)

(** The events of thread [t] in a run. *)
Definition events_of (t : nat) (tr : list (nat * event)) : list event :=
  map snd (filter (fun te => Nat.eqb (fst te) t) tr).

(** [threading.Lock] along a run, from the holder of the lock at its start
    to the holder at its end: a thread takes the lock only when it is free
    ([acquire] blocks until then), and the lock is released by the thread
    that holds it (the methods release it at the end of the [with] block
    that took it).  [None] is for a run that cannot happen. *)
Fixpoint holder_after (holder : option nat) (tr : list (nat * event))
    : option (option nat) :=
  match tr with
  | [] => Some holder
  | (t, LockAcquire) :: tr' =>
      match holder with
      | None => holder_after (Some t) tr'
      | Some _ => None
      end
  | (t, LockRelease) :: tr' =>
      match holder with
      | Some h => if Nat.eqb h t then holder_after None tr' else None
      | None => None
      end
  | _ :: tr' => holder_after holder tr'
  end.

(** A run that starts with the lock free and respects the lock. *)
Definition possible (tr : list (nat * event)) : Prop :=
  exists holder, holder_after None tr = Some holder.

(** The release of the specification: append [weight] copies of the
    current timestamp, then remove the oldest entry while the log is not
    empty and newest - oldest >= period. *)
Fixpoint spec_trim (period0 : Z) (log : list Z) {struct log} : list Z :=
  match log with
  | [] => []
  | oldest :: rest =>
      if last log oldest - oldest >=? period0 then spec_trim period0 rest
      else log
  end.

Definition spec_release (now : Z) (s : RateLimiter) : RateLimiter :=
  set_calls (spec_trim (period s) (calls s ++ repeat now (Z.to_nat (consume s)))) s.

(** The log is in chronological order: no entry is later than one behind
    it. *)
Definition chronological (q : list Z) : Prop := StronglySorted Z.le q.

Inductive api_call : Type :=
| CallEnter
| CallExit (exc : option exn)
| CallSetConsume (value : Z)
| CallGetConsume
| CallDelConsume.

Definition run_api (c : api_call) : M unit :=
  match c with
  | CallEnter => __enter__
  | CallExit exc => __exit__ exc
  | CallSetConsume value => consume_setter value
  | CallGetConsume => consume_getter ;; ret tt
  | CallDelConsume => consume_deleter
  end.

(** The limiters that [__init__] and calls of the methods produce, under
    any clock. *)
Inductive reachable : RateLimiter -> Prop :=
| reach_init max_calls0 period0 callback0 consume0 s :
    __init__ max_calls0 period0 callback0 consume0 = Ok s -> reachable s
| reach_call s c w :
    reachable s -> self w = s -> reachable (self (snd (run_api c w))).

(** What [sys.exc_info()] holds when the body of a [with] block ends. *)
Definition exc_info {A} (r : outcome A) : option exn :=
  match r with
  | Ok _ => None
  | Raise e => Some e
  end.

(** A callable that raises, for the examples. *)
Definition failing_callable (_ : unit) : M Z := raise (Raised 42).

(** ** Notions used in the further properties *)

(** A caller that makes a list of method calls one after the other,
    whatever their outcomes. *)
Fixpoint run_calls (cs : list api_call) (w : World) : World :=
  match cs with
  | [] => w
  | c :: cs' => run_calls cs' (snd (run_api c w))
  end.

(** A clock that never goes back. *)
Definition nondecreasing (clock : nat -> Z) : Prop :=
  forall n : nat, clock n <= clock (S n).

(** The log is in chronological order and not ahead of the next read of
    the clock. *)
Definition ordered (w : World) : Prop :=
  chronological (calls (self w))
  /\ Forall (fun t => t <= time_source w (reads w)) (calls (self w)).

(** The callback threads started in a trace, with their argument. *)
Definition thread_starts (tr : list event) : list (callback_t * Z) :=
  flat_map (fun e => match e with
                     | ThreadStart cb arg => [(cb, arg)]
                     | _ => []
                     end) tr.

(** One use of the limiter by a single thread: [with limiter: pass]. *)
Definition cycle (exc : option exn) : M unit := __enter__ ;; __exit__ exc.

Fixpoint sequential (k : nat) (w : World) : World :=
  match k with
  | O => w
  | S k' => snd (cycle None (sequential k' w))
  end.

(** The sleep of a blocked [__enter__] is honoured: the clock read by the
    [__exit__] that follows is not before the admission time. *)
Definition sleep_honoured (w : World) : Prop :=
  let s := self w in
  over_capacity s ->
  time_source w (reads w) + (- ((- consume s) / max_calls s)) * period s
    - _timespan s
  <= time_source w (S (S (reads w))).

Definition within_capacity (s : RateLimiter) : Prop :=
  Z.of_nat (List.length (calls s)) <= max_calls s.

(** Every timestamp of the log is there at least [n] times. *)
Definition grouped (n : Z) (q : list Z) : Prop :=
  forall t : Z, In t q -> n <= Z.of_nat (count_occ Z.eq_dec q t).

(** What a thread that uses the limiter alone, with a weight that fits the
    capacity, finds between two uses. *)
Definition steady (w : World) : Prop :=
  configured (self w)
  /\ consume (self w) <= max_calls (self w)
  /\ ordered w
  /\ within_capacity (self w)
  /\ grouped (consume (self w)) (calls (self w)).

(** * Proofs *)

(** One step in solving [evs = pre ++ Sleep secs :: post] for a known
    [evs]: either [pre] is empty and [evs] starts with the [Sleep], or the
    first event of [evs] goes to [pre]. *)
Ltac peel_trace H pre :=
  destruct pre as [| ? pre]; simpl in H;
  [ first [ discriminate H
          | injection H as ? ?; subst; repeat split; solve [reflexivity | lia] ]
  | first [ discriminate H | injection H as ? H; subst ] ].


(** ** Concrete runs *)

Example init_two_per_second :
  __init__ 2 1000 None 1 = Ok (mkRateLimiter [] 1000 2 None 1).
Proof. reflexivity. Qed.

Example init_zero_capacity :
  __init__ 0 1000 None 1 =
    Raise (ValueError "Rate limiting number of calls should be > 0").
Proof. reflexivity. Qed.

Example ceil_15_10 : math_ceil_div 15 10 = Ok 2.
Proof. reflexivity. Qed.

Example trim_drops_aged_entries :
  popleft_while 10 [0; 3; 8; 12; 12] = Ok [3; 8; 12; 12].
Proof. reflexivity. Qed.

Example trim_with_period_zero :
  popleft_while 0 [5] = Raise (IndexError "pop from an empty deque").
Proof. reflexivity. Qed.

(** [RateLimiter(max_calls=2, period=1.0)], in milliseconds, and three
    calls with the clock at 0: the third [__enter__] sleeps one period. *)
Example three_calls_back_to_back :
  let w := boot (mkRateLimiter [] 1000 2 None 1) (fun _ => 0) in
  let run := (__enter__ ;; __exit__ None ;; __enter__ ;; __exit__ None ;;
              __enter__) in
  fst (run w) = Ok tt
  /\ calls (self (snd (run w))) = [0; 0]
  /\ trace (snd (run w)) =
       [LockAcquire; LockRelease; LockAcquire; LockRelease;
        LockAcquire; LockRelease; LockAcquire; LockRelease;
        LockAcquire; Sleep 1000; LockRelease].
Proof. repeat split. Qed.

(** ** The float quotient *)

Lemma ceil_unique (m P n : Z) :
  0 < P -> (n - 1) * P < m <= n * P -> - ((- m) / P) = n.
Proof.
  intros HP [Hlo Hhi].
  pose proof (Z.mul_div_le (- m) P HP) as H1.
  pose proof (Z.mul_succ_div_gt (- m) P HP) as H2.
  nia.
Qed.

Lemma round_half_even_near (n d : Z) :
  0 < d ->
  let m := round_half_even n d in
  2 * n - d <= 2 * d * m <= 2 * n + d.
Proof.
  intros Hd m. subst m. unfold round_half_even.
  pose proof (Z.div_mod n d ltac:(lia)) as Hdm.
  pose proof (Z.mod_pos_bound n d Hd) as Hr.
  set (q := n / d) in *. set (r := n mod d) in *.
  destruct (Z.ltb_spec (2 * r) d); [nia |].
  destruct (Z.ltb_spec d (2 * r)); [nia |].
  destruct (Z.even q); nia.
Qed.

Lemma round_half_even_le (n d N : Z) :
  0 < d -> n <= N * d -> round_half_even n d <= N.
Proof.
  intros Hd Hn. unfold round_half_even.
  pose proof (Z.div_mod n d ltac:(lia)) as Hdm.
  pose proof (Z.mod_pos_bound n d Hd) as Hr.
  set (q := n / d) in *. set (r := n mod d) in *.
  assert (Hq : q <= N) by nia.
  assert (Hq1 : 0 < r -> q + 1 <= N) by (intros; nia).
  destruct (Z.ltb_spec (2 * r) d); [exact Hq |].
  destruct (Z.ltb_spec d (2 * r)); [apply Hq1; lia |].
  destruct (Z.even q); [exact Hq | apply Hq1; lia].
Qed.

(** Rounding [a * P / b] to an integer and taking the ceiling of the
    result over [P] gives the ceiling of [a / b], when [b < 2 * P]. *)
Lemma ceil_round_exact (a b P : Z) :
  0 < a -> 0 < b -> 0 < P -> b < 2 * P ->
  - ((- round_half_even (a * P) b) / P) = - ((- a) / b).
Proof.
  intros Ha Hb HP Hfine.
  set (n := - ((- a) / b)).
  assert (Hn : (n - 1) * b < a <= n * b).
  { pose proof (Z.mul_div_le (- a) b Hb). pose proof (Z.mul_succ_div_gt (- a) b Hb).
    subst n. nia. }
  apply ceil_unique; [exact HP |].
  pose proof (round_half_even_near (a * P) b Hb) as Hnear. cbv zeta in Hnear.
  pose proof (round_half_even_le (a * P) b (n * P) Hb) as Hle.
  set (m := round_half_even (a * P) b) in *.
  split.
  - assert (H1 : (n - 1) * b * P + P <= a * P) by nia.
    assert (H2 : 2 * b * ((n - 1) * P) < 2 * b * m) by nia.
    nia.
  - apply Hle. nia.
Qed.

Lemma ratio_log2_range (a b : Z) :
  ratio_log2 a b = Z.log2 a - Z.log2 b
  \/ ratio_log2 a b = Z.log2 a - Z.log2 b - 1.
Proof.
  unfold ratio_log2. destruct (_ <=? _); [left | right]; reflexivity.
Qed.

Lemma ratio_log2_lower (a b : Z) :
  0 < a -> 0 < b ->
  shl b (ratio_log2 a b) <= shl a (- ratio_log2 a b).
Proof.
  intros Ha Hb. unfold ratio_log2.
  set (d := Z.log2 a - Z.log2 b).
  destruct (Z.leb_spec (shl b d) (shl a (- d))) as [Hle | Hgt]; [exact Hle |].
  destruct (Z.log2_spec a Ha) as [Hla _].
  destruct (Z.log2_spec b Hb) as [_ Hlb].
  pose proof (Z.log2_nonneg a) as Hna. pose proof (Z.log2_nonneg b) as Hnb.
  unfold shl.
  destruct (Z.le_gt_cases 1 d) as [Hd | Hd].
  - rewrite (Z.max_r 0 (d - 1)) by lia. rewrite (Z.max_l 0 (- (d - 1))) by lia.
    rewrite Z.pow_0_r, Z.mul_1_r.
    assert (Hp : 2 ^ Z.succ (Z.log2 b) * 2 ^ (d - 1) = 2 ^ Z.log2 a).
    { rewrite <- Z.pow_add_r by lia. f_equal; unfold d; lia. }
    assert (0 < 2 ^ (d - 1)) by (apply Z.pow_pos_nonneg; lia).
    nia.
  - rewrite (Z.max_l 0 (d - 1)) by lia. rewrite (Z.max_r 0 (- (d - 1))) by lia.
    rewrite Z.pow_0_r, Z.mul_1_r.
    assert (Hp : 2 ^ Z.log2 a * 2 ^ (- (d - 1)) = 2 ^ Z.succ (Z.log2 b)).
    { rewrite <- Z.pow_add_r by lia. f_equal; unfold d; lia. }
    assert (0 < 2 ^ (- (d - 1))) by (apply Z.pow_pos_nonneg; lia).
    nia.
Qed.

Lemma log2_below_53 (a : Z) : 0 < a < 2 ^ 53 -> 0 <= Z.log2 a <= 52.
Proof.
  intros [Ha Hlt]. split; [apply Z.log2_nonneg |].
  assert (Z.log2 a < 53) by (apply Z.log2_lt_pow2; lia). lia.
Qed.

(** Below 2^53 the float quotient has the ceiling of the exact one. *)
Lemma math_ceil_div_exact (a b : Z) :
  0 < a < 2 ^ 53 -> 0 < b < 2 ^ 53 ->
  math_ceil_div a b = Ok (- ((- a) / b)).
Proof.
  intros Ha Hb.
  pose proof (log2_below_53 a Ha) as Hla. pose proof (log2_below_53 b Hb) as Hlb.
  pose proof (ratio_log2_range a b) as Hfl.
  pose proof (ratio_log2_lower a b ltac:(lia) ltac:(lia)) as Hlow.
  unfold math_ceil_div.
  destruct (Z.eqb_spec b 0); [lia |]. destruct (Z.eqb_spec a 0); [lia |].
  rewrite (Z.abs_eq a), (Z.abs_eq b) by lia.
  rewrite (Z.sgn_pos a), (Z.sgn_pos b) by lia.
  unfold float_of_ratio.
  set (fl := ratio_log2 a b) in *.
  rewrite (Z.max_l (fl - 52) (- 1074)) by lia.
  set (k := 52 - fl).
  assert (Hk : 0 <= k) by (unfold k; lia).
  replace (fl - 52) with (- k) by (unfold k; lia).
  assert (HP : 0 < 2 ^ k) by (apply Z.pow_pos_nonneg; lia).
  assert (Hnum : shl a (- - k) = a * 2 ^ k).
  { unfold shl. rewrite Z.opp_involutive, Z.max_r by lia. reflexivity. }
  assert (Hden : shl b (- k) = b).
  { unfold shl. rewrite Z.max_l by lia. rewrite Z.pow_0_r. lia. }
  rewrite Hnum, Hden.
  assert (Hfine : b < 2 * 2 ^ k).
  { unfold shl in Hlow.
    destruct (Z.le_gt_cases 0 fl) as [Hpos | Hneg].
    - rewrite (Z.max_r 0 fl), (Z.max_l 0 (- fl)) in Hlow by lia.
      rewrite Z.pow_0_r, Z.mul_1_r in Hlow.
      assert (Hp : 2 ^ k * 2 ^ fl = 2 ^ 52).
      { rewrite <- Z.pow_add_r by lia. f_equal; unfold k; lia. }
      assert (0 < 2 ^ fl) by (apply Z.pow_pos_nonneg; lia).
      change (2 ^ 53) with (2 * 2 ^ 52) in Ha. nia.
    - rewrite (Z.max_l 0 fl), (Z.max_r 0 (- fl)) in Hlow by lia.
      rewrite Z.pow_0_r, Z.mul_1_r in Hlow.
      assert (Hp : 2 ^ 52 * 2 ^ (- fl) = 2 ^ k).
      { rewrite <- Z.pow_add_r by lia. f_equal; unfold k; lia. }
      assert (0 < 2 ^ (- fl)) by (apply Z.pow_pos_nonneg; lia).
      change (2 ^ 53) with (2 * 2 ^ 52) in Ha. nia. }
  pose proof (ceil_round_exact a b (2 ^ k) ltac:(lia) ltac:(lia) HP Hfine) as Hex.
  pose proof (round_half_even_le (a * 2 ^ k) b (a * 2 ^ k) ltac:(lia) ltac:(nia))
    as Hmle.
  pose proof (round_half_even_near (a * 2 ^ k) b ltac:(lia)) as Hnear.
  cbv zeta in Hnear.
  set (m := round_half_even (a * 2 ^ k) b) in *.
  replace (1 * 1 * m) with m by lia.
  unfold float_overflows, ceil_of_float.
  destruct (Z.leb_spec 0 (- k)) as [Hz | Hz].
  - assert (k = 0) by lia. subst k.
    replace (- (52 - fl)) with 0 in * by lia.
    replace (52 - fl) with 0 in * by lia.
    rewrite Z.pow_0_r in *. rewrite Z.mul_1_r, Z.div_1_r in *.
    destruct (Z.leb_spec (2 ^ 1024) m) as [Hov | _].
    + exfalso. assert (2 ^ 53 < 2 ^ 1024) by (apply Z.pow_lt_mono_r; lia). lia.
    + simpl. f_equal. lia.
  - simpl. rewrite Z.opp_involutive. f_equal. exact Hex.
Qed.

(** A weight that fits the capacity never overflows. *)
Lemma math_ceil_div_fits (a b : Z) :
  0 < a <= b -> exists c, math_ceil_div a b = Ok c.
Proof.
  intros [Ha Hab].
  pose proof (ratio_log2_range a b) as Hfl.
  pose proof (Z.log2_le_mono a b Hab) as Hmono.
  unfold math_ceil_div.
  destruct (Z.eqb_spec b 0); [lia |]. destruct (Z.eqb_spec a 0); [lia |].
  rewrite (Z.abs_eq a), (Z.abs_eq b) by lia.
  unfold float_of_ratio.
  set (fl := ratio_log2 a b) in *.
  set (e := Z.max (fl - 52) (- 1074)).
  assert (He : e < 0) by (unfold e; lia).
  unfold float_overflows.
  destruct (Z.leb_spec 0 e); [lia |]. simpl. eexists. reflexivity.
Qed.

Lemma math_ceil_div_zero (a : Z) :
  math_ceil_div a 0 = Raise (ZeroDivisionError "division by zero").
Proof. reflexivity. Qed.

Lemma ceil_div_is_ceiling (a b : Z) :
  0 < b ->
  let q := - ((- a) / b) in (q - 1) * b < a <= q * b.
Proof.
  intros Hb q. subst q.
  pose proof (Z.mul_div_le (- a) b Hb) as Hlo.
  pose proof (Z.mul_succ_div_gt (- a) b Hb) as Hhi.
  nia.
Qed.

(** ** Running [__enter__] *)

Lemma events_since_app (w w' : World) (evs : list event) :
  trace w' = trace w ++ evs -> events_since w w' = evs.
Proof.
  intros H. unfold events_since. rewrite H.
  rewrite skipn_app, skipn_all, Nat.sub_diag. reflexivity.
Qed.

Lemma enter_admits (w : World) :
  ~ over_capacity (self w) ->
  __enter__ w =
    (Ok tt, mkWorld (self w) (time_source w) (reads w)
              (trace w ++ [LockAcquire; LockRelease])).
Proof.
  unfold over_capacity. intros H.
  unfold __enter__, with_lock, with_, bind, emit, get_self, ret. simpl.
  destruct (Z.gtb_spec (Z.of_nat (List.length (calls (self w))) + consume (self w))
              (max_calls (self w))) as [Hgt | Hle]; [lia |].
  simpl. rewrite <- app_assoc. reflexivity.
Qed.

Lemma enter_blocks (w : World) (cycles : Z) :
  over_capacity (self w) ->
  math_ceil_div (consume (self w)) (max_calls (self w)) = Ok cycles ->
  let s := self w in
  let now := time_source w (reads w) in
  let now' := time_source w (S (reads w)) in
  let until := now + cycles * period s - _timespan s in
  __enter__ w =
    (Ok tt, mkWorld s (time_source w) (S (S (reads w)))
              (trace w ++ [LockAcquire] ++ notify_events (callback s) until
                 ++ sleep_events (until - now') ++ [LockRelease])).
Proof.
  unfold over_capacity. intros H Hceil. cbv zeta.
  unfold __enter__, with_lock, with_, bind, emit, get_self, ret. simpl.
  destruct (Z.gtb_spec (Z.of_nat (List.length (calls (self w))) + consume (self w))
              (max_calls (self w))) as [Hgt | Hle]; [| lia].
  unfold wait_for_slot, bind, lift. rewrite Hceil.
  unfold time_time, thread_start, time_sleep, emit, ret, sleep_events,
    notify_events. simpl.
  destruct (callback (self w)) as [cb |]; [destruct (cb_truthy cb) |]; simpl;
    match goal with |- context [?d >? 0] => destruct (d >? 0) end; simpl;
    repeat rewrite <- app_assoc; reflexivity.
Qed.

Lemma enter_raises (w : World) (e : exn) :
  over_capacity (self w) ->
  math_ceil_div (consume (self w)) (max_calls (self w)) = Raise e ->
  __enter__ w =
    (Raise e, mkWorld (self w) (time_source w) (reads w)
                (trace w ++ [LockAcquire; LockRelease])).
Proof.
  unfold over_capacity. intros H Hceil.
  unfold __enter__, with_lock, with_, bind, emit, get_self, ret. simpl.
  destruct (Z.gtb_spec (Z.of_nat (List.length (calls (self w))) + consume (self w))
              (max_calls (self w))) as [Hgt | Hle]; [| lia].
  unfold wait_for_slot, bind, lift. rewrite Hceil. simpl.
  rewrite <- app_assoc. reflexivity.
Qed.

Lemma last_indep (q : list Z) (d d' : Z) :
  q <> [] -> last q d = last q d'.
Proof.
  induction q as [| x q IH]; intros Hq; [contradiction |].
  destruct q as [| y q]; [reflexivity |].
  change (last (y :: q) d = last (y :: q) d'). apply IH. discriminate.
Qed.

Lemma timespan_newest_oldest (q : list Z) :
  timespan_of q = last q 0 - hd 0 q.
Proof.
  destruct q as [| x q]; [reflexivity |].
  unfold timespan_of. simpl hd.
  rewrite (last_indep (x :: q) x 0) by discriminate. reflexivity.
Qed.

(** C1.  On a limiter with a positive [max_calls] whose quotient
    [consume / max_calls] can be computed, [__enter__] reads the
    clock (twice: it computes the admission time and the time left to
    sleep) exactly when [len(calls) + consume > max_calls]; otherwise it
    returns at once: the limiter and the clock are untouched and the only
    events are the taking and the release of the lock, no [Sleep] and no
    callback thread. *)
Theorem enter_blocks_iff_over_capacity (w : World) :
  0 < max_calls (self w) ->
  cycles_computed (self w) ->
  (over_capacity (self w) <-> reads (snd (__enter__ w)) = S (S (reads w)))
  /\ (over_capacity (self w) <-> reads (snd (__enter__ w)) <> reads w)
  /\ (~ over_capacity (self w) ->
      __enter__ w =
        (Ok tt, mkWorld (self w) (time_source w) (reads w)
                  (trace w ++ [LockAcquire; LockRelease]))
      /\ events_since w (snd (__enter__ w)) = [LockAcquire; LockRelease]).
Proof.
  intros Hmc [cycles Hceil].
  assert (Hdec : over_capacity (self w) \/ ~ over_capacity (self w))
    by (unfold over_capacity; lia).
  assert (Hquiet : ~ over_capacity (self w) ->
            reads (snd (__enter__ w)) = reads w).
  { intros Hn. rewrite (enter_admits w Hn). reflexivity. }
  assert (Hbusy : over_capacity (self w) ->
            reads (snd (__enter__ w)) = S (S (reads w))).
  { intros Ho. rewrite (enter_blocks w cycles Ho Hceil). reflexivity. }
  repeat split.
  - exact Hbusy.
  - intros Hr. destruct Hdec as [Ho | Hn]; [exact Ho |].
    rewrite (Hquiet Hn) in Hr. lia.
  - intros Ho. rewrite (Hbusy Ho). lia.
  - intros Hr. destruct Hdec as [Ho | Hn]; [exact Ho |].
    elim Hr. exact (Hquiet Hn).
  - exact (enter_admits w H).
  - apply events_since_app. rewrite (enter_admits w H). reflexivity.
Qed.

Lemma enter_blocks_iff_over_capacity_witness :
  let full := boot (mkRateLimiter [0; 0] 10 2 None 1) (fun _ => 3) in
  let free := boot (mkRateLimiter [0] 10 2 None 1) (fun _ => 3) in
  0 < max_calls (self full)
  /\ cycles_computed (self full)
  /\ reads (snd (__enter__ full)) = 2%nat
  /\ __enter__ free =
       (Ok tt, mkWorld (self free) (fun _ => 3) 0%nat [LockAcquire; LockRelease]).
Proof.
  intros full free.
  assert (Hfull : 0 < max_calls (self full)) by (simpl; lia).
  assert (Hfree : 0 < max_calls (self free)) by (simpl; lia).
  assert (Hc : cycles_computed (self full)) by (exists 1; reflexivity).
  assert (Hc' : cycles_computed (self free)) by (exists 1; reflexivity).
  split; [exact Hfull |]. split; [exact Hc |]. split.
  - apply (proj1 (enter_blocks_iff_over_capacity full Hfull Hc)).
    unfold over_capacity. simpl. lia.
  - apply (proj2 (proj2 (enter_blocks_iff_over_capacity free Hfree Hc'))).
    unfold over_capacity. simpl. lia.
Defined.

(** C3, as the code has it.  When [__enter__] takes the blocking branch
    and [math.ceil(consume / max_calls)] returns [cycles], [__enter__]
    returns normally after these events, in order: the lock is taken, the
    callback thread, if the callback is true, is started on [until], the
    thread sleeps [until - now'] if that is positive and not at all
    otherwise, the lock is released; where [until] is
    [now + cycles * period - window_span], [window_span] is newest minus
    oldest entry of the log (0 on an empty log), and [now], [now'] are the
    two clock reads.  [cycles] is the ceiling of the float nearest to
    [consume / max_calls]: it is the ceiling of the exact quotient (the
    integer with [(cycles - 1) * max_calls < consume <= cycles * max_calls])
    whenever [consume] and [max_calls] are positive and below [2 ** 53].
    For [consume = 15] and [max_calls = 10] the ceiling computed is 2. *)
Theorem enter_admission_time (w : World) (cycles : Z) :
  over_capacity (self w) ->
  math_ceil_div (consume (self w)) (max_calls (self w)) = Ok cycles ->
  let s := self w in
  let now := time_source w (reads w) in
  let now' := time_source w (S (reads w)) in
  exists window_span : Z,
    window_span = last (calls s) 0 - hd 0 (calls s)
    /\ fst (__enter__ w) = Ok tt
    /\ (0 < now + cycles * period s - window_span - now' ->
        events_since w (snd (__enter__ w)) =
          [LockAcquire]
            ++ notify_events (callback s) (now + cycles * period s - window_span)
            ++ [Sleep (now + cycles * period s - window_span - now');
                LockRelease])
    /\ (now + cycles * period s - window_span - now' <= 0 ->
        events_since w (snd (__enter__ w)) =
          [LockAcquire]
            ++ notify_events (callback s) (now + cycles * period s - window_span)
            ++ [LockRelease])
    /\ (0 < consume s < 2 ^ 53 -> 0 < max_calls s < 2 ^ 53 ->
        (cycles - 1) * max_calls s < consume s <= cycles * max_calls s)
    /\ math_ceil_div 15 10 = Ok 2.
Proof.
  intros Ho Hceil s now now'.
  exists (_timespan s).
  pose proof (enter_blocks w cycles Ho Hceil) as Hrun. cbv zeta in Hrun.
  split; [apply timespan_newest_oldest |].
  split; [rewrite Hrun; reflexivity |].
  fold s now now' in Hrun.
  split; [| split; [| split]].
  - intros Hpos. apply events_since_app. rewrite Hrun. simpl trace.
    unfold sleep_events.
    destruct (Z.gtb_spec (now + cycles * period s - _timespan s - now') 0);
      [reflexivity | lia].
  - intros Hneg. apply events_since_app. rewrite Hrun. simpl trace.
    unfold sleep_events.
    destruct (Z.gtb_spec (now + cycles * period s - _timespan s - now') 0);
      [lia | reflexivity].
  - intros Hc Hm. fold s in Hceil.
    rewrite (math_ceil_div_exact _ _ Hc Hm) in Hceil. injection Hceil as <-.
    apply (ceil_div_is_ceiling (consume s) (max_calls s)). lia.
  - vm_compute. reflexivity.
Qed.

Lemma enter_admission_time_witness :
  let w := boot (mkRateLimiter [1; 4] 10 10 (Some (mkCallback 7 true)) 15)
             (fun _ => 5) in
  over_capacity (self w)
  /\ math_ceil_div (consume (self w)) (max_calls (self w)) = Ok 2
  /\ events_since w (snd (__enter__ w)) =
       [LockAcquire; ThreadStart (mkCallback 7 true) 22; Sleep 17; LockRelease].
Proof.
  intro w.
  assert (Ho : over_capacity (self w)) by (unfold over_capacity; simpl; lia).
  assert (Hceil : math_ceil_div (consume (self w)) (max_calls (self w)) = Ok 2)
    by (vm_compute; reflexivity).
  split; [exact Ho |]. split; [exact Hceil |].
  destruct (enter_admission_time w 2 Ho Hceil)
    as (span & H3 & _ & Hsleep & _).
  simpl in H3. subst span.
  apply Hsleep. simpl. lia.
Defined.

(** C3, as the claim has it, fails: for [consume = 10 ** 17 + 1] and
    [max_calls = 10 ** 17] the ceiling of the quotient is 2, but the float
    nearest to the quotient is 1.0 and [__enter__] sleeps one period of 10,
    not two. *)
Lemma enter_exact_ceiling_fails :
  let w := boot (mkRateLimiter [] 10 100000000000000000 None 100000000000000001)
             (fun _ => 0) in
  ~ (exists cycles : Z,
       (cycles - 1) * max_calls (self w) < consume (self w)
         <= cycles * max_calls (self w)
       /\ events_since w (snd (__enter__ w)) =
            [LockAcquire; Sleep (0 + cycles * period (self w) - 0 - 0);
             LockRelease]).
Proof.
  intros w (cycles & Hbracket & Hev).
  assert (Hrun : events_since w (snd (__enter__ w))
                 = [LockAcquire; Sleep 10; LockRelease])
    by (vm_compute; reflexivity).
  rewrite Hrun in Hev. injection Hev as Hev.
  unfold consume in Hbracket. simpl in Hbracket, Hev. lia.
Qed.

(** ** Running [__exit__] *)

Lemma exit_run (w : World) (exc : option exn) :
  let s := self w in
  let now := time_source w (reads w) in
  let q := calls s ++ repeat now (Z.to_nat (consume s)) in
  __exit__ exc w =
    match popleft_while (period s) q with
    | Ok q' =>
        (Ok tt, mkWorld (set_calls q' s) (time_source w) (S (reads w))
                  (trace w ++ [LockAcquire; LockRelease]))
    | Raise e =>
        (Raise e, mkWorld (set_calls [] s) (time_source w) (S (reads w))
                    (trace w ++ [LockAcquire; LockRelease]))
    end.
Proof.
  cbv zeta.
  unfold __exit__, with_lock, with_, bind, emit, time_time, get_self,
    put_self, trim_calls, bind, get_self, put_self, raise, ret. simpl.
  destruct (popleft_while (period (self w))
              (calls (self w)
               ++ repeat (time_source w (reads w)) (Z.to_nat (consume (self w)))));
    simpl; rewrite <- app_assoc; reflexivity.
Qed.

Lemma popleft_while_spec (p : Z) (q : list Z) :
  match popleft_while p q with
  | Ok q' => q' = spec_trim p q
  | Raise _ => spec_trim p q = [] /\ p <= 0
  end.
Proof.
  induction q as [| x q IH].
  - simpl. destruct (Z.geb_spec 0 p); [split; [reflexivity | lia] | reflexivity].
  - cbn [popleft_while spec_trim]. unfold timespan_of.
    destruct (last (x :: q) x - x >=? p); [exact IH | reflexivity].
Qed.

Lemma spec_trim_nonempty_window (p : Z) (q : list Z) :
  0 < p -> q <> [] -> spec_trim p q <> [].
Proof.
  intros Hp. induction q as [| x q IH]; intros Hq; [contradiction |].
  cbn [spec_trim].
  destruct (Z.geb_spec (last (x :: q) x - x) p) as [Hge | Hlt]; [| discriminate].
  destruct q as [| y q]; [simpl in Hge; lia |].
  apply IH. discriminate.
Qed.

Lemma popleft_while_total (p : Z) (q : list Z) :
  0 < p -> popleft_while p q = Ok (spec_trim p q).
Proof.
  intros Hp. pose proof (popleft_while_spec p q) as H.
  destruct (popleft_while p q) as [q' | e]; [congruence | lia].
Qed.

Lemma last_cons_nonempty (x : Z) (q : list Z) (d : Z) :
  q <> [] -> last (x :: q) d = last q d.
Proof.
  destruct q; [contradiction | reflexivity].
Qed.

(** What the trim loop removes is a prefix whose entries all lie at least
    [p] before the newest one, and it stops on a window shorter than [p]. *)
Lemma spec_trim_split (p : Z) (q : list Z) :
  0 < p ->
  exists removed,
    q = removed ++ spec_trim p q
    /\ Forall (fun t => last q 0 - t >= p) removed
    /\ timespan_of (spec_trim p q) < p.
Proof.
  intros Hp. induction q as [| x q IH].
  - exists []. simpl. repeat split; [constructor | lia].
  - cbn [spec_trim].
    destruct (Z.geb_spec (last (x :: q) x - x) p) as [Hge | Hlt].
    + assert (Hq : q <> []) by (intros ->; simpl in Hge; lia).
      destruct IH as (removed & Heq & Hrm & Hspan).
      exists (x :: removed). repeat split.
      * simpl. f_equal. exact Heq.
      * rewrite (last_cons_nonempty x q 0 Hq). constructor.
        -- rewrite (last_cons_nonempty x q x Hq) in Hge.
           rewrite (last_indep q 0 x Hq). lia.
        -- exact Hrm.
      * exact Hspan.
    + exists []. repeat split; [constructor | exact Hlt].
Qed.

Lemma last_repeat (t d : Z) (n : nat) : last (repeat t (S n)) d = t.
Proof.
  induction n as [| n IH]; [reflexivity |].
  change (last (repeat t (S n)) d = t). exact IH.
Qed.

Lemma last_app_repeat (q : list Z) (t d : Z) (n : nat) :
  last (q ++ repeat t (S n)) d = t.
Proof.
  induction q as [| x q IH]; [apply last_repeat |].
  change ((x :: q) ++ repeat t (S n)) with (x :: (q ++ repeat t (S n))).
  rewrite last_cons_nonempty; [exact IH |].
  destruct q; discriminate.
Qed.

Lemma timespan_repeat (t : Z) (n : nat) : timespan_of (repeat t n) = 0.
Proof.
  destruct n as [| n]; [reflexivity |].
  unfold timespan_of. change (last (repeat t (S n)) t - t = 0).
  rewrite last_repeat. lia.
Qed.

(** The entries appended by a release survive its trim loop. *)
Lemma spec_trim_keeps_fresh (p : Z) (q : list Z) (t : Z) (n : nat) :
  0 < p ->
  exists removed kept_old,
    q = removed ++ kept_old
    /\ spec_trim p (q ++ repeat t n) = kept_old ++ repeat t n.
Proof.
  intros Hp. induction q as [| x q IH].
  - exists [], []. split; [reflexivity |].
    simpl app. destruct n as [| n]; [reflexivity |].
    change (repeat t (S n)) with (t :: repeat t n) at 1 2.
    cbn [spec_trim]. change (t :: repeat t n) with (repeat t (S n)).
    rewrite last_repeat.
    destruct (Z.geb_spec (t - t) p); [lia | reflexivity].
  - change ((x :: q) ++ repeat t n) with (x :: (q ++ repeat t n)).
    cbn [spec_trim].
    destruct (last (x :: q ++ repeat t n) x - x >=? p).
    + destruct IH as (removed & kept_old & Heq & Htrim).
      exists (x :: removed), kept_old. split; [simpl; f_equal; exact Heq | exact Htrim].
    + exists [], (x :: q). split; reflexivity.
Qed.

Lemma last_app_nonempty (a b : list Z) (d : Z) :
  b <> [] -> last (a ++ b) d = last b d.
Proof.
  intros Hb. induction a as [| x a IH]; [reflexivity |].
  change ((x :: a) ++ b) with (x :: (a ++ b)).
  rewrite last_cons_nonempty; [exact IH |].
  destruct a, b; try discriminate; contradiction.
Qed.

Lemma chronological_app_repeat (q : list Z) (t : Z) (n : nat) :
  chronological q -> Forall (fun x => x <= t) q ->
  chronological (q ++ repeat t n).
Proof.
  unfold chronological. intros Hs Hle.
  induction q as [| x q IH].
  - simpl. induction n as [| n IHn]; simpl; constructor; [exact IHn |].
    apply Forall_forall. intros y Hy. apply repeat_spec in Hy. lia.
  - apply StronglySorted_inv in Hs. destruct Hs as [Hs Hx].
    inversion Hle as [| ? ? Hxt Hle']; subst.
    simpl. constructor; [apply IH; assumption |].
    apply Forall_app. split; [exact Hx |].
    apply Forall_forall. intros y Hy. apply repeat_spec in Hy. lia.
Qed.

Lemma chronological_suffix (a b : list Z) :
  chronological (a ++ b) -> chronological b.
Proof.
  unfold chronological. induction a as [| x a IH]; intros H; [exact H |].
  simpl in H. apply StronglySorted_inv in H. apply IH. tauto.
Qed.

Lemma exit_world (w : World) (exc : option exn) :
  snd (__exit__ exc w) =
    mkWorld (spec_release (time_source w (reads w)) (self w))
      (time_source w) (S (reads w)) (trace w ++ [LockAcquire; LockRelease]).
Proof.
  rewrite exit_run. unfold spec_release.
  pose proof (popleft_while_spec (period (self w))
                (calls (self w)
                 ++ repeat (time_source w (reads w)) (Z.to_nat (consume (self w)))))
    as H.
  destruct (popleft_while _ _) as [q' | e]; simpl.
  - rewrite H. reflexivity.
  - destruct H as [H _]. rewrite H. reflexivity.
Qed.

(** C2.  Whatever the limiter, the clock and the exception passed in,
    [__exit__] leaves the limiter that the release of the specification
    describes: the log is the old log with [consume] copies of the one
    timestamp read appended at its tail, from which the oldest entry was
    removed while the log was not empty and newest - oldest >= period; no
    other field of the limiter changes, one clock read is made and the lock
    is taken and released. *)
Theorem exit_refines_spec_release (w : World) (exc : option exn) :
  snd (__exit__ exc w) =
    mkWorld (spec_release (time_source w (reads w)) (self w))
      (time_source w) (S (reads w)) (trace w ++ [LockAcquire; LockRelease]).
Proof.
  exact (exit_world w exc).
Qed.

(** C5.  On a limiter with a positive [period] and [consume >= 1], whose
    log is in chronological order and not ahead of the clock, [__exit__]
    returns normally (the trim loop ends) and splits the extended log in
    the entries removed, a prefix, and the entries kept: the kept log ends
    on the timestamp just appended, spans less than [period], holds only
    entries less than [period] before the newest one, every removed entry
    lies [period] or more before the newest one, and the kept log is again
    in chronological order. *)
Theorem exit_leaves_window_within_period (w : World) (exc : option exn) :
  let s := self w in
  let now := time_source w (reads w) in
  0 < period s ->
  1 <= consume s ->
  chronological (calls s) ->
  Forall (fun t => t <= now) (calls s) ->
  exists removed kept : list Z,
    __exit__ exc w =
      (Ok tt, mkWorld (set_calls kept s) (time_source w) (S (reads w))
                (trace w ++ [LockAcquire; LockRelease]))
    /\ calls s ++ repeat now (Z.to_nat (consume s)) = removed ++ kept
    /\ last kept 0 = now
    /\ last kept 0 - hd 0 kept < period s
    /\ Forall (fun t => 0 <= now - t < period s) kept
    /\ Forall (fun t => now - t >= period s) removed
    /\ chronological kept.
Proof.
  intros s now Hp Hc Hsorted Hpast.
  set (q := calls s ++ repeat now (Z.to_nat (consume s))).
  destruct (Z.to_nat (consume s)) as [| n] eqn:Hn; [lia |].
  assert (Hq : q <> []).
  { unfold q. destruct (calls s); discriminate. }
  assert (Hlast : last q 0 = now) by apply last_app_repeat.
  assert (Hchron : chronological q)
    by (apply chronological_app_repeat; assumption).
  assert (Hall : Forall (fun t => t <= now) q).
  { apply Forall_app. split; [exact Hpast |].
    apply Forall_forall. intros y Hy. apply repeat_spec in Hy. lia. }
  destruct (spec_trim_split (period s) q Hp) as (removed & Heq & Hrm & Hspan).
  pose proof (spec_trim_nonempty_window (period s) q Hp Hq) as Hkept.
  set (kept := spec_trim (period s) q) in *.
  assert (Hlk : last kept 0 = now).
  { rewrite <- Hlast, Heq. symmetry.
    apply last_app_nonempty. exact Hkept. }
  assert (Hck : chronological kept).
  { apply (chronological_suffix removed). rewrite <- Heq. exact Hchron. }
  exists removed, kept. repeat split.
  - pose proof (exit_run w exc) as Hrun. cbv zeta in Hrun.
    fold s now in Hrun. rewrite Hn in Hrun. fold q in Hrun.
    rewrite (popleft_while_total _ _ Hp) in Hrun. exact Hrun.
  - exact Heq.
  - exact Hlk.
  - rewrite <- timespan_newest_oldest. exact Hspan.
  - destruct kept as [| x k]; [contradiction |].
    unfold timespan_of in Hspan.
    rewrite (last_indep (x :: k) x 0) in Hspan by discriminate.
    rewrite Hlk in Hspan.
    apply StronglySorted_inv in Hck. destruct Hck as [_ Hx].
    assert (Hk : Forall (fun t => t <= now) (x :: k)).
    { rewrite Heq in Hall. apply Forall_app in Hall. tauto. }
    rewrite Forall_forall in *. intros t [Ht | Ht].
    + specialize (Hk t (or_introl Ht)). simpl in Hk. lia.
    + specialize (Hx t Ht). specialize (Hk t (or_intror Ht)). simpl in Hk. lia.
  - rewrite Hlast in Hrm. exact Hrm.
  - exact Hck.
Qed.

Lemma exit_leaves_window_within_period_witness :
  let w := boot (mkRateLimiter [0; 3; 8] 10 5 None 2) (fun _ => 12) in
  exists removed kept : list Z,
    fst (__exit__ None w) = Ok tt
    /\ [0; 3; 8; 12; 12] = removed ++ kept
    /\ last kept 0 - hd 0 kept < 10.
Proof.
  intro w.
  destruct (exit_leaves_window_within_period w None)
    as (removed & kept & H1 & H2 & _ & H4 & _).
  - simpl. lia.
  - simpl. lia.
  - simpl. unfold chronological. repeat constructor; lia.
  - simpl. repeat constructor; lia.
  - exists removed, kept. rewrite H1. simpl in H2, H4. auto.
Defined.

(** C10.  On a limiter with a positive [period] and [consume >= 1],
    [__exit__] returns normally and its trim loop removes entries of the
    old log only: the new log is a suffix of the old one followed by all
    [consume] entries just appended, so it holds at least [consume]
    entries and is not empty. *)
Theorem exit_keeps_fresh_entries (w : World) (exc : option exn) :
  let s := self w in
  let fresh := repeat (time_source w (reads w)) (Z.to_nat (consume s)) in
  0 < period s ->
  1 <= consume s ->
  exists removed kept_old : list Z,
    calls s = removed ++ kept_old
    /\ __exit__ exc w =
         (Ok tt, mkWorld (set_calls (kept_old ++ fresh) s) (time_source w)
                   (S (reads w)) (trace w ++ [LockAcquire; LockRelease]))
    /\ Z.of_nat (List.length fresh) = consume s
    /\ consume s <= Z.of_nat (List.length (calls (self (snd (__exit__ exc w)))))
    /\ calls (self (snd (__exit__ exc w))) <> [].
Proof.
  intros s fresh Hp Hc.
  destruct (spec_trim_keeps_fresh (period s) (calls s)
              (time_source w (reads w)) (Z.to_nat (consume s)) Hp)
    as (removed & kept_old & Heq & Htrim).
  fold fresh in Htrim.
  assert (Hrun : __exit__ exc w =
            (Ok tt, mkWorld (set_calls (kept_old ++ fresh) s) (time_source w)
                      (S (reads w)) (trace w ++ [LockAcquire; LockRelease]))).
  { pose proof (exit_run w exc) as Hrun. cbv zeta in Hrun.
    fold s fresh in Hrun.
    rewrite (popleft_while_total _ _ Hp), Htrim in Hrun. exact Hrun. }
  assert (Hlen : Z.of_nat (List.length fresh) = consume s).
  { unfold fresh. rewrite repeat_length. lia. }
  exists removed, kept_old. rewrite Hrun. simpl.
  repeat split; try assumption.
  - rewrite length_app. lia.
  - intros Hnil. apply (f_equal (@List.length Z)) in Hnil.
    rewrite length_app in Hnil. simpl in Hnil. lia.
Qed.

Lemma exit_keeps_fresh_entries_witness :
  let w := boot (mkRateLimiter [0; 3; 8] 4 5 None 2) (fun _ => 30) in
  calls (self (snd (__exit__ None w))) <> [].
Proof.
  intro w.
  destruct (exit_keeps_fresh_entries w None) as (_ & _ & _ & _ & _ & _ & H).
  - simpl. lia.
  - simpl. lia.
  - exact H.
Defined.

(** ** Construction and the [consume] property *)

(** C6.  [__init__] raises exactly when [period <= 0], [max_calls <= 0] or
    [consume < 1]; whichever check fails, the exception is a
    [ValueError]; a failed construction yields the exception and no
    limiter, and a successful one yields the limiter with an empty log and
    the arguments as its fields. *)
Theorem init_rejects_bad_configuration
    (max_calls0 period0 : Z) (callback0 : option callback_t) (consume0 : Z) :
  ((period0 <= 0 \/ max_calls0 <= 0 \/ consume0 < 1) <->
     exists e, __init__ max_calls0 period0 callback0 consume0 = Raise e)
  /\ ((period0 <= 0 \/ max_calls0 <= 0 \/ consume0 < 1) <->
        exists msg,
          __init__ max_calls0 period0 callback0 consume0 = Raise (ValueError msg))
  /\ ((0 < period0 /\ 0 < max_calls0 /\ 1 <= consume0) <->
        __init__ max_calls0 period0 callback0 consume0 =
          Ok (mkRateLimiter [] period0 max_calls0 callback0 consume0)).
Proof.
  unfold __init__, consume_check.
  destruct (Z.leb_spec period0 0) as [Hp | Hp];
    [| destruct (Z.leb_spec max_calls0 0) as [Hm | Hm];
       [| destruct (Z.ltb_spec consume0 1) as [Hc | Hc];
          [| destruct (Z.geb_spec consume0 1) as [Hc' | Hc']; [| lia]]]].
  all: split; [| split]; split; intros HH.
  all: try solve [ lia | eauto | reflexivity | discriminate HH
                 | destruct HH as [? HH]; discriminate HH ].
Qed.

(** C8.  The setter of [consume] stores any value [>= 1], leaving the log
    and the other fields as they are, and the value stored is the weight
    of the next [__enter__] and [__exit__]; on a value [< 1] it raises a
    [ValueError] and changes nothing; the deleter always raises an
    [AttributeError] and changes nothing; the getter returns the stored
    value, so the value of the last accepted assignment. *)
Theorem consume_property (w : World) (value : Z) :
  (1 <= value ->
     let w' := set_self (set__consume value (self w)) w in
     consume_setter value w = (Ok tt, w')
     /\ calls (self w') = calls (self w)
     /\ consume_getter w' = (Ok value, w')
     /\ (over_capacity (self w') <->
           Z.of_nat (List.length (calls (self w))) + value > max_calls (self w))
     /\ (forall exc,
           calls (self (snd (__exit__ exc w'))) =
             spec_trim (period (self w))
               (calls (self w)
                ++ repeat (time_source w (reads w)) (Z.to_nat value))))
  /\ (value < 1 ->
        (exists msg, consume_setter value w = (Raise (ValueError msg), w))
        /\ consume_getter (snd (consume_setter value w))
           = (Ok (consume (self w)), w))
  /\ (exists msg, consume_deleter w = (Raise (AttributeError msg), w))
  /\ consume_getter w = (Ok (_consume (self w)), w).
Proof.
  unfold consume_setter, consume_getter, consume_deleter, consume_check,
    bind, get_self, lift, put_self, raise, ret.
  repeat split.
  - destruct (Z.geb_spec value 1); [reflexivity | lia].
  - unfold over_capacity. simpl. tauto.
  - unfold over_capacity. simpl. tauto.
  - intros exc. rewrite exit_world. reflexivity.
  - destruct (Z.geb_spec value 1); [lia | eauto].
  - destruct (Z.geb_spec value 1); [lia | reflexivity].
  - eauto.
Qed.

Lemma consume_property_witness :
  let w := boot (mkRateLimiter [4; 4] 10 5 None 2) (fun _ => 6) in
  consume_setter 3 w = (Ok tt, boot (mkRateLimiter [4; 4] 10 5 None 3) (fun _ => 6))
  /\ (exists msg, consume_setter 0 w = (Raise (ValueError msg), w)).
Proof.
  intro w.
  destruct (consume_property w 3) as (Hset & _).
  destruct (consume_property w 0) as (_ & Hbad & _).
  split.
  - apply Hset. lia.
  - apply Hbad. lia.
Defined.

(** ** The lock around the sleep *)

Lemma enter_zero_division (w : World) :
  over_capacity (self w) ->
  max_calls (self w) = 0 ->
  __enter__ w =
    (Raise (ZeroDivisionError "division by zero"),
     mkWorld (self w) (time_source w) (reads w)
       (trace w ++ [LockAcquire; LockRelease])).
Proof.
  intros Ho Hmc. apply (enter_raises w _ Ho).
  rewrite Hmc. apply math_ceil_div_zero.
Qed.

Lemma over_capacity_dec (s : RateLimiter) :
  over_capacity s \/ ~ over_capacity s.
Proof. unfold over_capacity. lia. Qed.

(** The three ways through [__enter__]. *)
Lemma enter_cases (w : World) :
  (~ over_capacity (self w)
   /\ __enter__ w =
        (Ok tt, mkWorld (self w) (time_source w) (reads w)
                  (trace w ++ [LockAcquire; LockRelease])))
  \/ (exists e,
        over_capacity (self w)
        /\ __enter__ w =
             (Raise e, mkWorld (self w) (time_source w) (reads w)
                         (trace w ++ [LockAcquire; LockRelease])))
  \/ (exists until secs,
        over_capacity (self w)
        /\ __enter__ w =
             (Ok tt, mkWorld (self w) (time_source w) (S (S (reads w)))
                       (trace w ++ [LockAcquire]
                          ++ notify_events (callback (self w)) until
                          ++ sleep_events secs ++ [LockRelease]))).
Proof.
  destruct (over_capacity_dec (self w)) as [Ho | Hn].
  - destruct (math_ceil_div (consume (self w)) (max_calls (self w)))
      as [cycles | e] eqn:Hceil.
    + right. right. eexists _, _. split; [exact Ho |].
      exact (enter_blocks w cycles Ho Hceil).
    + right. left. exists e. split; [exact Ho |].
      exact (enter_raises w e Ho Hceil).
  - left. split; [exact Hn | exact (enter_admits w Hn)].
Qed.

(** The events of one [__enter__], whatever the limiter. *)
Lemma enter_events_shape (w : World) :
  exists (cb : option callback_t) (until secs : Z),
    events_since w (snd (__enter__ w)) =
      [LockAcquire] ++ notify_events cb until ++ sleep_events secs
        ++ [LockRelease].
Proof.
  destruct (enter_cases w)
    as [[_ Hrun] | [(e & _ & Hrun) | (until & secs & _ & Hrun)]].
  - exists None, 0, 0. apply events_since_app. rewrite Hrun. reflexivity.
  - exists None, 0, 0. apply events_since_app. rewrite Hrun. reflexivity.
  - eexists _, _, _. apply events_since_app. rewrite Hrun. reflexivity.
Qed.

(** In the events of one [__enter__], a [Sleep] comes after the lock is
    taken, and only the release of the lock follows it. *)
Lemma enter_sleep_position (w : World) (pre post : list event) (secs : Z) :
  events_since w (snd (__enter__ w)) = pre ++ Sleep secs :: post ->
  lock_held pre = true /\ post = [LockRelease] /\ 0 < secs.
Proof.
  destruct (enter_events_shape w) as (cb & until & d & Hev).
  rewrite Hev. clear Hev. unfold notify_events, sleep_events.
  intros H.
  destruct cb as [c |]; [destruct (cb_truthy c) |];
    destruct (Z.gtb_spec d 0) as [Hd | Hd]; simpl in H;
    repeat peel_trace H pre.
Qed.

Lemma events_of_app (t : nat) (l1 l2 : list (nat * event)) :
  events_of t (l1 ++ l2) = events_of t l1 ++ events_of t l2.
Proof.
  unfold events_of. rewrite filter_app, map_app. reflexivity.
Qed.

Lemma events_of_own (t : nat) (e : event) (l : list (nat * event)) :
  events_of t ((t, e) :: l) = e :: events_of t l.
Proof.
  unfold events_of. simpl. rewrite Nat.eqb_refl. reflexivity.
Qed.

Lemma events_of_other (t u : nat) (e : event) (l : list (nat * event)) :
  u <> t -> events_of t ((u, e) :: l) = events_of t l.
Proof.
  intros Hne. unfold events_of. simpl.
  destruct (Nat.eqb_spec u t); [contradiction | reflexivity].
Qed.

Lemma holder_after_app (h : option nat) (l1 l2 : list (nat * event)) :
  holder_after h (l1 ++ l2) =
    match holder_after h l1 with
    | Some h1 => holder_after h1 l2
    | None => None
    end.
Proof.
  revert h. induction l1 as [| [t e] l1 IH]; intros h; [reflexivity |].
  destruct e; simpl; try apply IH.
  - destruct h; [reflexivity | apply IH].
  - destruct h as [h |]; [| reflexivity].
    destruct (Nat.eqb h t); [apply IH | reflexivity].
Qed.

(** Along a possible run, a thread holds the lock exactly when it is
    inside a [with self._lock:] block of its own. *)
Lemma holder_is_in_block (a : nat) (l : list (nat * event))
    (h h' : option nat) (held : bool) :
  holder_after h l = Some h' ->
  (h = Some a <-> held = true) ->
  (h' = Some a <-> lock_held_from held (events_of a l) = true).
Proof.
  revert h held. induction l as [| [t e] l IH]; intros h held Hrun Hinv.
  - simpl in Hrun. injection Hrun as <-. exact Hinv.
  - destruct (Nat.eq_dec t a) as [-> | Hne].
    + rewrite events_of_own.
      destruct e; simpl in Hrun |- *.
      * destruct h; [discriminate |]. apply (IH _ _ Hrun). tauto.
      * destruct h as [h |]; [| discriminate].
        destruct (Nat.eqb h a); [| discriminate].
        apply (IH _ _ Hrun). split; discriminate.
      * apply (IH _ _ Hrun Hinv).
      * apply (IH _ _ Hrun Hinv).
    + rewrite (events_of_other a t e l Hne).
      destruct e; simpl in Hrun.
      * destruct h; [discriminate |].
        assert (Hheld : held = false).
        { destruct held; [| reflexivity].
          destruct Hinv as [_ Hb]. discriminate (Hb eq_refl). }
        subst held. apply (IH _ _ Hrun).
        split; [intros [= ->]; contradiction | discriminate].
      * destruct h as [h |]; [| discriminate].
        destruct (Nat.eqb_spec h t) as [-> | _]; [| discriminate].
        assert (Hheld : held = false).
        { destruct held; [| reflexivity].
          destruct Hinv as [_ Hb]. pose proof (Hb eq_refl) as [= ->].
          contradiction. }
        subst held. apply (IH _ _ Hrun). split; discriminate.
      * apply (IH _ _ Hrun Hinv).
      * apply (IH _ _ Hrun Hinv).
Qed.

(** While a thread holds the lock, the events of the others are not lock
    events. *)
Lemma held_lock_excludes (a : nat) (mid tail : list (nat * event)) (h : option nat) :
  holder_after (Some a) (mid ++ tail) = Some h ->
  events_of a mid = [] ->
  Forall (fun te => fst te <> a /\ snd te <> LockAcquire
                    /\ snd te <> LockRelease) mid
  /\ holder_after (Some a) tail = Some h.
Proof.
  induction mid as [| [t e] mid IH]; intros Hrun Hnone.
  - split; [constructor | exact Hrun].
  - destruct (Nat.eq_dec t a) as [-> | Hne].
    { rewrite events_of_own in Hnone. discriminate. }
    rewrite (events_of_other a t e mid Hne) in Hnone.
    destruct e; simpl in Hrun.
    + discriminate.
    + destruct (Nat.eqb_spec a t) as [-> | _]; [contradiction | discriminate].
    + destruct (IH Hrun Hnone) as [Hall Htail].
      split; [constructor; [| exact Hall] | exact Htail].
      simpl. repeat split; [exact Hne | discriminate | discriminate].
    + destruct (IH Hrun Hnone) as [Hall Htail].
      split; [constructor; [| exact Hall] | exact Htail].
      simpl. repeat split; [exact Hne | discriminate | discriminate].
Qed.

Lemma events_of_first (a : nat) (l : list (nat * event)) (e : event) (q : list event) :
  events_of a l = e :: q ->
  exists mid rest,
    l = mid ++ (a, e) :: rest /\ events_of a mid = [] /\ events_of a rest = q.
Proof.
  induction l as [| [t e'] l IH]; intros H; [discriminate |].
  destruct (Nat.eq_dec t a) as [-> | Hne].
  - rewrite events_of_own in H. injection H as -> <-.
    exists [], l. repeat split.
  - rewrite (events_of_other a t e' l Hne) in H.
    destruct (IH H) as (mid & rest & -> & Hmid & Hrest).
    exists ((t, e') :: mid), rest. repeat split.
    + rewrite (events_of_other a t e' mid Hne). exact Hmid.
    + exact Hrest.
Qed.

(** C4, as the code has it.  Whenever [__enter__] sleeps, [self._lock] is
    held.  In the events of the call, the [Sleep] comes after the lock is
    taken and only the release of the lock follows it.  In any run of
    several threads that respects the lock, in which thread [a] makes a
    call of [__enter__] that sleeps: thread [a] holds the lock when it
    goes to sleep, and from there to its release of the lock no other
    thread takes the lock.  Every [__enter__] and every [__exit__] starts
    by taking the lock, so no other caller gets to the admission check
    while this one waits. *)
Theorem enter_sleeps_holding_lock
    (a : nat) (w : World) (tr pre post : list (nat * event)) (secs : Z) :
  events_of a tr = events_since w (snd (__enter__ w)) ->
  possible tr ->
  tr = pre ++ (a, Sleep secs) :: post ->
  0 < secs
  /\ lock_held (events_of a pre) = true
  /\ events_of a post = [LockRelease]
  /\ holder_after None pre = Some (Some a)
  /\ (exists mid rest,
        post = mid ++ (a, LockRelease) :: rest
        /\ Forall (fun te => fst te <> a /\ snd te <> LockAcquire
                          /\ snd te <> LockRelease) mid)
  /\ (forall (w' : World) (exc : option exn),
        hd_error (events_since w' (snd (__enter__ w'))) = Some LockAcquire
        /\ hd_error (events_since w' (snd (__exit__ exc w'))) = Some LockAcquire).
Proof.
  intros Hown [h Hrun] ->.
  rewrite events_of_app, events_of_own in Hown. symmetry in Hown.
  destruct (enter_sleep_position w _ _ _ Hown) as (Hheld & Hpost & Hsecs).
  rewrite holder_after_app in Hrun.
  destruct (holder_after None pre) as [h1 |] eqn:Hpre; [| discriminate].
  assert (Hh1 : h1 = Some a).
  { apply (holder_is_in_block a pre None h1 false Hpre); [| exact Hheld].
    split; discriminate. }
  subst h1. simpl in Hrun.
  destruct (events_of_first a post LockRelease [] Hpost)
    as (mid & rest & -> & Hmid & _).
  destruct (held_lock_excludes a mid _ h Hrun Hmid) as [Hall _].
  split; [exact Hsecs |]. split; [exact Hheld |].
  split; [exact Hpost |]. split; [reflexivity |].
  split; [exists mid, rest; split; [reflexivity | exact Hall] |].
  intros w' exc. split.
  - destruct (enter_events_shape w') as (cb & until & d & ->). reflexivity.
  - rewrite (events_since_app w' _ [LockAcquire; LockRelease]); [reflexivity |].
    rewrite exit_world. reflexivity.
Qed.

Lemma enter_sleeps_holding_lock_witness :
  let w := boot (mkRateLimiter [0] 10 1 None 1) (fun _ => 0) in
  let tr := [(0%nat, LockAcquire); (1%nat, ThreadStart (mkCallback 9 true) 4);
             (0%nat, Sleep 10); (1%nat, Sleep 2); (0%nat, LockRelease);
             (1%nat, LockAcquire); (1%nat, LockRelease)] in
  events_of 0 tr = events_since w (snd (__enter__ w))
  /\ possible tr
  /\ holder_after None [(0%nat, LockAcquire); (1%nat, ThreadStart (mkCallback 9 true) 4)]
     = Some (Some 0%nat).
Proof.
  intros w tr.
  assert (Hown : events_of 0 tr = events_since w (snd (__enter__ w)))
    by reflexivity.
  assert (Hposs : possible tr) by (exists None; reflexivity).
  split; [exact Hown |]. split; [exact Hposs |].
  exact (proj1 (proj2 (proj2 (proj2
    (enter_sleeps_holding_lock 0 w tr
       [(0%nat, LockAcquire); (1%nat, ThreadStart (mkCallback 9 true) 4)]
       [(1%nat, Sleep 2); (0%nat, LockRelease);
        (1%nat, LockAcquire); (1%nat, LockRelease)]
       10 Hown Hposs eq_refl))))).
Defined.

(** C4, as the claim has it, fails: a limiter whose log is full sleeps
    ten seconds between taking the lock and giving it back. *)
Lemma enter_sleep_outside_lock_fails :
  let w := boot (mkRateLimiter [0] 10 1 None 1) (fun _ => 0) in
  ~ sleeps_unlocked (events_since w (snd (__enter__ w))).
Proof.
  intros w Hclaim.
  specialize (Hclaim [LockAcquire] 10 [LockRelease] eq_refl).
  discriminate Hclaim.
Qed.

(** ** Reachable limiters *)

Lemma enter_self (w : World) : self (snd (__enter__ w)) = self w.
Proof.
  destruct (enter_cases w)
    as [[_ Hrun] | [(e & _ & Hrun) | (until & secs & _ & Hrun)]];
    rewrite Hrun; reflexivity.
Qed.

Lemma enter_returns (w : World) :
  cycles_computed (self w) -> fst (__enter__ w) = Ok tt.
Proof.
  intros [cycles Hceil]. destruct (over_capacity_dec (self w)) as [Ho | Hn].
  - rewrite (enter_blocks w cycles Ho Hceil). reflexivity.
  - rewrite (enter_admits w Hn). reflexivity.
Qed.

Lemma exit_returns (w : World) (exc : option exn) :
  0 < period (self w) -> fst (__exit__ exc w) = Ok tt.
Proof.
  intros Hp. rewrite exit_run, (popleft_while_total _ _ Hp). reflexivity.
Qed.

Lemma setter_accepts (w : World) (value : Z) :
  1 <= value ->
  consume_setter value w = (Ok tt, set_self (set__consume value (self w)) w).
Proof.
  intros Hv. unfold consume_setter, consume_check, bind, get_self, lift, put_self.
  destruct (Z.geb_spec value 1); [reflexivity | lia].
Qed.

Lemma setter_rejects (w : World) (value : Z) :
  value < 1 ->
  consume_setter value w =
    (Raise (ValueError "Number of calls to consume should be >= 1"), w).
Proof.
  intros Hv. unfold consume_setter, consume_check, bind, get_self, lift, put_self.
  destruct (Z.geb_spec value 1); [lia | reflexivity].
Qed.

(** The checks of [__init__] and of the setter hold on every reachable
    limiter. *)
Lemma reachable_configured (s : RateLimiter) : reachable s -> configured s.
Proof.
  induction 1 as [mc p cb c s Hinit | s c w Hreach IH Hself].
  - unfold __init__, consume_check in Hinit.
    destruct (Z.leb_spec p 0); [discriminate |].
    destruct (Z.leb_spec mc 0); [discriminate |].
    destruct (Z.ltb_spec c 1); [discriminate |].
    destruct (Z.geb_spec c 1); [| discriminate].
    injection Hinit as <-. unfold configured. simpl. lia.
  - subst s. destruct c as [| exc | value | |]; simpl run_api.
    + rewrite enter_self. exact IH.
    + rewrite exit_world. exact IH.
    + destruct (Z.lt_ge_cases value 1) as [Hlt | Hge].
      * rewrite (setter_rejects w value Hlt). exact IH.
      * rewrite (setter_accepts w value Hge).
        unfold configured in *. simpl. unfold consume. simpl. lia.
    + exact IH.
    + exact IH.
Qed.

(** ** The decorator *)

(** C7.  On a limiter with a positive [max_calls], whose quotient
    [consume / max_calls] can be computed, and that the wrapped
    callable leaves with a positive [period], a call of the decorated
    function is [__enter__], then the callable, then [__exit__]: both
    [__enter__] and [__exit__] return normally, the result is the value
    returned by the callable, or the exception it raised, and the world
    handed back is the one left by [__exit__], whose log is the released
    log of the specification. *)
Theorem wrapped_is_enter_call_exit {Args A : Type}
    (f : Args -> M A) (args : Args) (w : World) :
  let w1 := snd (__enter__ w) in
  let r := fst (f args w1) in
  let w2 := snd (f args w1) in
  let w3 := snd (__exit__ (exc_info r) w2) in
  0 < max_calls (self w) ->
  cycles_computed (self w) ->
  0 < period (self w2) ->
  fst (__enter__ w) = Ok tt
  /\ fst (__exit__ (exc_info r) w2) = Ok tt
  /\ __call__ f args w =
       (match r with
        | Ok v => Ok (Some v)
        | Raise e => Raise e
        end, w3)
  /\ self w3 = spec_release (time_source w2 (reads w2)) (self w2).
Proof.
  cbv zeta. intros Hmc Hcyc Hp.
  pose proof (enter_returns w Hcyc) as Hin.
  pose proof (exit_returns _ (exc_info (fst (f args (snd (__enter__ w))))) Hp)
    as Hout.
  repeat split.
  - exact Hin.
  - exact Hout.
  - unfold __call__, with_, bind.
    destruct (__enter__ w) as [o1 w1] eqn:E1. simpl in *. subst o1.
    destruct (f args w1) as [[v | e] w2] eqn:E2; simpl in *.
    + destruct (__exit__ None w2) as [o3 w3] eqn:E3. simpl in *.
      subst o3. reflexivity.
    + destruct (__exit__ (Some e) w2) as [o3 w3] eqn:E3. simpl in *.
      subst o3. reflexivity.
  - rewrite exit_world. reflexivity.
Qed.

Lemma wrapped_is_enter_call_exit_witness :
  let w := boot (mkRateLimiter [] 10 2 None 1) (fun _ => 5) in
  __call__ failing_callable tt w =
    (Raise (Raised 42),
     mkWorld (mkRateLimiter [5] 10 2 None 1) (fun _ => 5) 1%nat
       [LockAcquire; LockRelease; LockAcquire; LockRelease]).
Proof.
  intro w.
  destruct (wrapped_is_enter_call_exit failing_callable tt w)
    as (_ & _ & H & _).
  - simpl. lia.
  - exists 1. reflexivity.
  - simpl. lia.
  - rewrite H. reflexivity.
Defined.

(** ** A full log of one timestamp *)

Lemma spec_trim_repeat (p t : Z) (n : nat) :
  0 < p -> spec_trim p (repeat t n) = repeat t n.
Proof.
  intros Hp. destruct n as [| n]; [reflexivity |].
  change (repeat t (S n)) with (t :: repeat t n) at 1.
  cbn [spec_trim]. change (t :: repeat t n) with (repeat t (S n)).
  rewrite last_repeat.
  destruct (Z.geb_spec (t - t) p); [lia | reflexivity].
Qed.

(** A limiter made with [consume = max_calls], used once at time [t], then
    set to the weight [wgt]. *)
Lemma full_log_reachable (c p wgt t : Z) (cb : option callback_t) :
  0 < c -> 0 < p -> 1 <= wgt ->
  reachable (mkRateLimiter (repeat t (Z.to_nat c)) p c cb wgt).
Proof.
  intros Hc Hp Hw.
  set (s0 := mkRateLimiter [] p c cb c).
  assert (H0 : reachable s0).
  { apply (reach_init c p cb c).
    unfold __init__, consume_check.
    destruct (Z.leb_spec p 0); [lia |].
    destruct (Z.leb_spec c 0); [lia |].
    destruct (Z.ltb_spec c 1); [lia |].
    destruct (Z.geb_spec c 1); [reflexivity | lia]. }
  pose proof (reach_call s0 CallEnter (boot s0 (fun _ => t)) H0 eq_refl) as H1.
  simpl run_api in H1. rewrite enter_self in H1.
  pose proof (reach_call _ (CallExit None) (boot s0 (fun _ => t)) H1 eq_refl)
    as H2.
  simpl run_api in H2. rewrite exit_world in H2.
  unfold spec_release in H2. simpl in H2.
  rewrite (spec_trim_repeat p t _ Hp) in H2.
  pose proof (reach_call _ (CallSetConsume wgt)
                (boot _ (fun _ => t)) H2 eq_refl) as H3.
  simpl run_api in H3. rewrite (setter_accepts _ wgt Hw) in H3.
  exact H3.
Qed.

(** C9.  For every capacity [c > 0], period [p > 0] and weight
    [wgt >= 1], capacity and weight below [2 ** 53], and every timestamp
    [t], the limiter whose log holds [c] entries all equal to
    [t] is reachable, and [__enter__] on it takes the blocking branch
    whatever the clock reads, however late: with [now] and [now'] the two
    reads and [cycles] the value of [math.ceil(wgt / c)], the ceiling of
    [wgt / c], it starts the callback
    thread, if any, on [now + cycles * p] (the window span is 0), sleeps
    [now + cycles * p - now'] when that is positive, and so sleeps
    [cycles * p >= p], a full cycle, when the clock does not move between
    the two reads. *)
Theorem full_log_blocks_whatever_the_clock
    (c p wgt t : Z) (cb : option callback_t) :
  0 < c < 2 ^ 53 -> 0 < p -> 1 <= wgt < 2 ^ 53 ->
  let s := mkRateLimiter (repeat t (Z.to_nat c)) p c cb wgt in
  reachable s
  /\ Z.of_nat (List.length (calls s)) = c
  /\ _timespan s = 0
  /\ forall (clock : nat -> Z) (n : nat) (tr : list event),
       let w := mkWorld s clock n tr in
       let now := clock n in
       let now' := clock (S n) in
       exists cycles : Z,
         math_ceil_div wgt c = Ok cycles
         /\ (cycles - 1) * c < wgt <= cycles * c
         /\ p <= cycles * p
         /\ over_capacity s
         /\ fst (__enter__ w) = Ok tt
         /\ reads (snd (__enter__ w)) = S (S n)
         /\ events_since w (snd (__enter__ w)) =
              [LockAcquire] ++ notify_events cb (now + cycles * p)
                ++ sleep_events (now + cycles * p - now') ++ [LockRelease]
         /\ (now' = now ->
             events_since w (snd (__enter__ w)) =
               [LockAcquire] ++ notify_events cb (now + cycles * p)
                 ++ [Sleep (cycles * p); LockRelease]).
Proof.
  intros Hc53 Hp Hw53 s.
  assert (Hc : 0 < c) by lia. assert (Hw : 1 <= wgt) by lia.
  assert (Hlen : Z.of_nat (List.length (calls s)) = c).
  { simpl. rewrite repeat_length. lia. }
  assert (Hspan : _timespan s = 0) by apply timespan_repeat.
  split; [apply full_log_reachable; assumption |].
  split; [exact Hlen |].
  split; [exact Hspan |].
  intros clock n tr w now now'.
  assert (Ho : over_capacity (self w)).
  { unfold over_capacity. change (self w) with s. rewrite Hlen.
    unfold consume. simpl. lia. }
  assert (Hfloat : math_ceil_div wgt c = Ok (- (- wgt / c)))
    by (apply math_ceil_div_exact; lia).
  pose proof (enter_blocks w _ Ho Hfloat) as Hrun. cbv zeta in Hrun.
  change (self w) with s in Hrun. rewrite Hspan in Hrun.
  change (period s) with p in Hrun. change (callback s) with cb in Hrun.
  change (time_source w) with clock in Hrun. change (reads w) with n in Hrun.
  fold now now' in Hrun. rewrite Z.sub_0_r in Hrun.
  pose proof (ceil_div_is_ceiling wgt c Hc) as Hceil. cbv zeta in Hceil.
  set (cycles := - (- wgt / c)) in *.
  assert (Hcyc : 1 <= cycles) by nia.
  exists cycles.
  split; [exact Hfloat |].
  split; [exact Hceil |].
  split; [nia |].
  split; [exact Ho |].
  split; [rewrite Hrun; reflexivity |].
  split; [rewrite Hrun; reflexivity |].
  split.
  - apply events_since_app. rewrite Hrun. reflexivity.
  - intros Hsame. apply events_since_app. rewrite Hrun. simpl trace.
    rewrite Hsame. unfold sleep_events.
    replace (now + cycles * p - now) with (cycles * p) by lia.
    destruct (Z.gtb_spec (cycles * p) 0); [reflexivity | nia].
Qed.

Lemma full_log_blocks_whatever_the_clock_witness :
  let s := mkRateLimiter [0; 0; 0] 10 3 None 1 in
  let w := mkWorld s (fun _ => 1000000) 0%nat [] in
  reachable s
  /\ events_since w (snd (__enter__ w)) = [LockAcquire; Sleep 10; LockRelease].
Proof.
  intros s w.
  destruct (full_log_blocks_whatever_the_clock 3 10 1 0 None)
    as (H1 & _ & _ & H4);
    try solve [ lia | split; [lia | reflexivity] ].
  split; [exact H1 |].
  destruct (H4 (fun _ => 1000000) 0%nat [])
    as (cycles & _ & Hc & _ & _ & _ & _ & _ & Hev).
  assert (Hone : cycles = 1) by lia. subst cycles.
  exact (Hev eq_refl).
Defined.

(** * Further properties *)

(** ** What the methods never do *)

(** X1.  Every limiter obtained from [__init__] by calls of the methods,
    under any clock, has [period > 0], [max_calls > 0] and
    [consume >= 1]. *)
Theorem reachable_limiter_is_configured (s : RateLimiter) :
  reachable s -> 0 < period s /\ 0 < max_calls s /\ 1 <= consume s.
Proof.
  intros H. exact (reachable_configured s H).
Qed.

Lemma reachable_limiter_is_configured_witness :
  let s := mkRateLimiter [] 10 2 None 1 in
  reachable s /\ 0 < period s /\ 0 < max_calls s /\ 1 <= consume s.
Proof.
  intro s.
  assert (H : reachable s) by (apply (reach_init 2 10 None 1); reflexivity).
  split; [exact H |].
  exact (reachable_limiter_is_configured s H).
Defined.

Lemma reachable_window (s : RateLimiter) :
  reachable s -> _timespan s < period s.
Proof.
  induction 1 as [mc p cb c s Hinit | s c w Hreach IH Hself].
  - pose proof (reachable_configured s (reach_init mc p cb c s Hinit))
      as (Hp & _).
    unfold __init__, consume_check in Hinit.
    destruct (p <=? 0); [discriminate |].
    destruct (mc <=? 0); [discriminate |].
    destruct (c <? 1); [discriminate |].
    destruct (c >=? 1); [| discriminate].
    injection Hinit as <-. simpl in *. exact Hp.
  - subst s. pose proof (reachable_configured _ Hreach) as (Hp & _).
    destruct c as [| exc | value | |]; simpl run_api.
    + rewrite enter_self. exact IH.
    + rewrite exit_world. unfold spec_release, _timespan. simpl.
      destruct (spec_trim_split (period (self w))
                  (calls (self w)
                   ++ repeat (time_source w (reads w))
                        (Z.to_nat (consume (self w)))) Hp)
        as (_ & _ & _ & Hspan).
      exact Hspan.
    + destruct (Z.lt_ge_cases value 1) as [Hlt | Hge].
      * rewrite (setter_rejects w value Hlt). exact IH.
      * rewrite (setter_accepts w value Hge). exact IH.
    + exact IH.
    + exact IH.
Qed.

(** X2.  On every reachable limiter, under any clock, the span between
    the oldest and the newest entry of the log is less than [period]. *)
Theorem reachable_limiter_window_below_period (s : RateLimiter) :
  reachable s -> last (calls s) 0 - hd 0 (calls s) < period s.
Proof.
  intros H. rewrite <- timespan_newest_oldest. exact (reachable_window s H).
Qed.

Lemma reachable_limiter_window_below_period_witness :
  let s := mkRateLimiter [2; 5; 9] 10 5 None 1 in
  reachable s
  /\ last (calls s) 0 - hd 0 (calls s) = 7
  /\ last (calls s) 0 - hd 0 (calls s) < period s.
Proof.
  intro s.
  assert (H0 : reachable (mkRateLimiter [] 10 5 None 1))
    by (apply (reach_init 5 10 None 1); reflexivity).
  pose proof (reach_call _ (CallExit None)
                (boot (mkRateLimiter [] 10 5 None 1) (fun _ => (- 4)))
                H0 eq_refl) as H1.
  pose proof (reach_call _ (CallExit None)
                (boot (mkRateLimiter [- 4] 10 5 None 1) (fun _ => 2))
                H1 eq_refl) as H2.
  pose proof (reach_call _ (CallExit None)
                (boot (mkRateLimiter [- 4; 2] 10 5 None 1) (fun _ => 5))
                H2 eq_refl) as H3.
  pose proof (reach_call _ (CallExit None)
                (boot (mkRateLimiter [- 4; 2; 5] 10 5 None 1) (fun _ => 9))
                H3 eq_refl) as H4.
  assert (H : reachable s) by exact H4.
  split; [exact H |]. split; [reflexivity |].
  exact (reachable_limiter_window_below_period s H).
Defined.

(** X3.  [__enter__] never changes the limiter, whichever branch it takes
    and also when it raises: the log, [period], [max_calls], [callback] and
    [consume] are as before, and so is the clock source.  [__exit__]
    changes the log only. *)
Theorem enter_never_mutates_limiter (w : World) (exc : option exn) :
  self (snd (__enter__ w)) = self w
  /\ time_source (snd (__enter__ w)) = time_source w
  /\ set_calls (calls (self w)) (self (snd (__exit__ exc w))) = self w
  /\ time_source (snd (__exit__ exc w)) = time_source w.
Proof.
  split; [apply enter_self |].
  split.
  - destruct (enter_cases w)
      as [[_ Hrun] | [(e & _ & Hrun) | (until & secs & _ & Hrun)]];
      rewrite Hrun; reflexivity.
  - rewrite exit_world. unfold spec_release, set_calls. simpl.
    destruct (self w). split; reflexivity.
Qed.

Lemma exit_events (w : World) (exc : option exn) :
  events_since w (snd (__exit__ exc w)) = [LockAcquire; LockRelease].
Proof.
  apply events_since_app. rewrite exit_world. reflexivity.
Qed.

Lemma lock_held_shape (cb : option callback_t) (until secs : Z) :
  lock_held ([LockAcquire] ++ notify_events cb until ++ sleep_events secs
               ++ [LockRelease]) = false.
Proof.
  unfold notify_events, sleep_events.
  destruct cb as [c |]; [destruct (cb_truthy c) |];
    destruct (secs >? 0); reflexivity.
Qed.

(** X4.  No method returns with [self._lock] held, also when it raises:
    over the events of any one call the lock ends up free. *)
Theorem no_call_keeps_the_lock (c : api_call) (w : World) :
  lock_held (events_since w (snd (run_api c w))) = false.
Proof.
  destruct c as [| exc | value | |]; simpl run_api.
  - destruct (enter_events_shape w) as (cb & until & secs & Hev).
    rewrite Hev. apply lock_held_shape.
  - rewrite exit_events. reflexivity.
  - destruct (Z.lt_ge_cases value 1) as [Hlt | Hge].
    + rewrite (setter_rejects w value Hlt).
      rewrite (events_since_app w _ []) by (simpl; symmetry; apply app_nil_r).
      reflexivity.
    + rewrite (setter_accepts w value Hge).
      rewrite (events_since_app w _ []) by (simpl; symmetry; apply app_nil_r).
      reflexivity.
  - rewrite (events_since_app w _ []) by (simpl; symmetry; apply app_nil_r).
    reflexivity.
  - rewrite (events_since_app w _ []) by (simpl; symmetry; apply app_nil_r).
    reflexivity.
Qed.

Lemma thread_starts_shape (cb : option callback_t) (until secs : Z) :
  thread_starts ([LockAcquire] ++ notify_events cb until ++ sleep_events secs
                   ++ [LockRelease])
  = match cb with
    | Some c => if cb_truthy c then [(c, until)] else []
    | None => []
    end.
Proof.
  unfold notify_events, sleep_events.
  destruct cb as [c |]; [destruct (cb_truthy c) |];
    destruct (secs >? 0); reflexivity.
Qed.

(** X5.  The callback thread is started by a blocking [__enter__] only,
    and only for a callback that is true: an [__enter__] that admits at
    once starts none; one that blocks, [math.ceil(consume / max_calls)]
    having returned [cycles], starts none on a limiter without callback or
    with a callback that is false, and exactly one otherwise, on the
    admission time [now + cycles * period - window_span]; [__exit__] starts
    none. *)
Theorem callback_started_once_per_block
    (w : World) (exc : option exn) (cycles : Z) :
  math_ceil_div (consume (self w)) (max_calls (self w)) = Ok cycles ->
  let s := self w in
  let until := time_source w (reads w) + cycles * period s - _timespan s in
  thread_starts (events_since w (snd (__exit__ exc w))) = []
  /\ (~ over_capacity s ->
      thread_starts (events_since w (snd (__enter__ w))) = [])
  /\ (over_capacity s ->
      thread_starts (events_since w (snd (__enter__ w))) =
        match callback s with
        | Some cb => if cb_truthy cb then [(cb, until)] else []
        | None => []
        end).
Proof.
  intros Hceil s until.
  split; [rewrite exit_events; reflexivity |].
  split.
  - intros Hn. rewrite (events_since_app w _ [LockAcquire; LockRelease]).
    + reflexivity.
    + rewrite (enter_admits w Hn). reflexivity.
  - intros Ho.
    pose proof (enter_blocks w cycles Ho Hceil) as Hrun. cbv zeta in Hrun.
    rewrite (events_since_app w _ _ (f_equal trace (f_equal snd Hrun))).
    apply thread_starts_shape.
Qed.

Lemma callback_started_once_per_block_witness :
  let heard := boot (mkRateLimiter [1; 4] 10 2 (Some (mkCallback 7 true)) 1)
                 (fun _ => 5) in
  let mute := boot (mkRateLimiter [1; 4] 10 2 (Some (mkCallback 7 false)) 1)
                (fun _ => 5) in
  thread_starts (events_since heard (snd (__enter__ heard)))
    = [(mkCallback 7 true, 12)]
  /\ thread_starts (events_since mute (snd (__enter__ mute))) = [].
Proof.
  intros heard mute.
  assert (Hh : math_ceil_div (consume (self heard)) (max_calls (self heard))
               = Ok 1) by reflexivity.
  assert (Hm : math_ceil_div (consume (self mute)) (max_calls (self mute))
               = Ok 1) by reflexivity.
  destruct (callback_started_once_per_block heard None 1 Hh) as (_ & _ & H1).
  destruct (callback_started_once_per_block mute None 1 Hm) as (_ & _ & H2).
  split.
  - apply H1. unfold over_capacity. simpl. lia.
  - apply H2. unfold over_capacity. simpl. lia.
Defined.



(** ** The weight and the capacity *)

(** X7.  For [max_calls > 0] and [consume >= 1], both below [2 ** 53],
    the float computation [math.ceil(consume / max_calls)] returns the
    ceiling of the exact quotient: it is at least 1, at most [consume],
    and is 1 exactly when the weight fits the capacity. *)
Theorem cycles_one_iff_weight_fits (s : RateLimiter) :
  0 < max_calls s < 2 ^ 53 ->
  1 <= consume s < 2 ^ 53 ->
  exists cycles : Z,
    math_ceil_div (consume s) (max_calls s) = Ok cycles
    /\ (cycles - 1) * max_calls s < consume s <= cycles * max_calls s
    /\ 1 <= cycles <= consume s
    /\ (cycles = 1 <-> consume s <= max_calls s).
Proof.
  intros Hmc Hc.
  exists (- ((- consume s) / max_calls s)).
  pose proof (ceil_div_is_ceiling (consume s) (max_calls s) ltac:(lia)) as Hceil.
  cbv zeta in Hceil.
  split; [apply math_ceil_div_exact; lia |].
  set (cycles := - (- consume s / max_calls s)) in *.
  split; [exact Hceil |].
  split; [nia |]. split; intros H; nia.
Qed.

Lemma cycles_one_iff_weight_fits_witness :
  exists cycles : Z,
    math_ceil_div 7 3 = Ok cycles
    /\ (cycles - 1) * 3 < 7 <= cycles * 3
    /\ 1 <= cycles <= 7 /\ (cycles = 1 <-> 7 <= 3).
Proof.
  apply (cycles_one_iff_weight_fits (mkRateLimiter [] 10 3 None 7));
    unfold consume; simpl; lia.
Defined.

(** X8.  A limiter whose weight exceeds its capacity, both positive and
    below [2 ** 53], blocks on every [__enter__], also on an empty log:
    [math.ceil(consume / max_calls)] returns at least 2, and [__enter__]
    returns normally after starting the callback thread, if any, on
    [now + cycles * period - window_span] and sleeping until then when that
    is ahead of the second clock read. *)
Theorem oversized_weight_always_blocks (w : World) :
  0 < max_calls (self w) ->
  max_calls (self w) < consume (self w) ->
  consume (self w) < 2 ^ 53 ->
  let s := self w in
  exists cycles : Z,
    math_ceil_div (consume s) (max_calls s) = Ok cycles
    /\ 2 <= cycles
    /\ over_capacity s
    /\ __enter__ w =
         (Ok tt,
          mkWorld s (time_source w) (S (S (reads w)))
            (trace w ++ [LockAcquire]
               ++ notify_events (callback s)
                    (time_source w (reads w) + cycles * period s - _timespan s)
               ++ sleep_events
                    (time_source w (reads w) + cycles * period s - _timespan s
                     - time_source w (S (reads w)))
               ++ [LockRelease])).
Proof.
  intros Hmc Hbig Hc53 s. fold s in Hmc, Hbig, Hc53.
  assert (Ho : over_capacity s) by (unfold over_capacity; lia).
  assert (Hfloat : math_ceil_div (consume s) (max_calls s)
                   = Ok (- (- consume s / max_calls s)))
    by (apply math_ceil_div_exact; lia).
  pose proof (ceil_div_is_ceiling (consume s) (max_calls s) Hmc) as Hceil.
  cbv zeta in Hceil.
  set (cycles := - (- consume s / max_calls s)) in *.
  exists cycles.
  split; [exact Hfloat |].
  split; [nia |].
  split; [exact Ho |].
  exact (enter_blocks w cycles Ho Hfloat).
Qed.

Lemma oversized_weight_always_blocks_witness :
  let w := boot (mkRateLimiter [] 10 10 None 15) (fun _ => 0) in
  exists cycles : Z,
    2 <= cycles
    /\ events_since w (snd (__enter__ w)) = [LockAcquire; Sleep 20; LockRelease].
Proof.
  intro w.
  destruct (oversized_weight_always_blocks w) as (cycles & Hf & H2 & _ & _).
  - simpl. lia.
  - unfold consume. simpl. lia.
  - reflexivity.
  - exists cycles. split; [exact H2 | reflexivity].
Defined.

Lemma spec_trim_length (p : Z) (q : list Z) :
  (List.length (spec_trim p q) <= List.length q)%nat.
Proof.
  induction q as [| x q IH]; [apply Nat.le_refl |].
  cbn [spec_trim]. destruct (last (x :: q) x - x >=? p).
  - simpl. lia.
  - apply Nat.le_refl.
Qed.

(** X9.  When [__enter__] admits at once, the [__exit__] that follows
    leaves at most [max_calls] entries in the log, whatever the clock and
    the period. *)
Theorem unblocked_use_stays_within_capacity (w : World) (exc : option exn) :
  1 <= consume (self w) ->
  ~ over_capacity (self w) ->
  within_capacity (self (snd (cycle exc w))).
Proof.
  intros Hc Hn. unfold cycle, bind.
  rewrite (enter_admits w Hn).
  rewrite exit_world. unfold within_capacity, spec_release. simpl.
  pose proof (spec_trim_length (period (self w))
                (calls (self w)
                 ++ repeat (time_source w (reads w))
                      (Z.to_nat (consume (self w))))) as Hlen.
  rewrite length_app, repeat_length in Hlen.
  unfold over_capacity in Hn. lia.
Qed.

Lemma unblocked_use_stays_within_capacity_witness :
  let w := boot (mkRateLimiter [0; 3] 10 4 None 2) (fun _ => 5) in
  within_capacity (self (snd (cycle None w))).
Proof.
  intro w. apply (unblocked_use_stays_within_capacity w None).
  - unfold consume. simpl. lia.
  - unfold over_capacity, consume. simpl. lia.
Defined.

(** ** The trim loop *)

(** X10.  The trim loop is idempotent: run on the log it has just
    returned, it removes nothing. *)
Theorem popleft_while_idempotent (p : Z) (q q' : list Z) :
  popleft_while p q = Ok q' -> popleft_while p q' = Ok q'.
Proof.
  induction q as [| x q IH]; intros H.
  - simpl in H. destruct (0 >=? p) eqn:E; [discriminate |].
    injection H as <-. simpl. rewrite E. reflexivity.
  - cbn [popleft_while] in H.
    destruct (timespan_of (x :: q) >=? p) eqn:E.
    + apply IH. exact H.
    + injection H as <-. cbn [popleft_while]. rewrite E. reflexivity.
Qed.

Lemma popleft_while_idempotent_witness :
  popleft_while 10 [0; 3; 8; 12; 12] = Ok [3; 8; 12; 12]
  /\ popleft_while 10 [3; 8; 12; 12] = Ok [3; 8; 12; 12].
Proof.
  assert (H : popleft_while 10 [0; 3; 8; 12; 12] = Ok [3; 8; 12; 12])
    by reflexivity.
  split; [exact H |].
  exact (popleft_while_idempotent 10 _ _ H).
Defined.

(** ** The decorator *)

(** X11.  The decorated function never swallows an exception: whatever
    the callable and the limiter, its outcome is the value of the callable
    or an exception, never the fall through of the [with] block. *)
Theorem wrapped_never_swallows {Args A : Type}
    (f : Args -> M A) (args : Args) (w : World) :
  fst (__call__ f args w) <> Ok None.
Proof.
  unfold __call__, with_, bind, truthy_None, raise, ret.
  destruct (__enter__ w) as [[[] | e1] w1]; [| discriminate].
  destruct (f args w1) as [[v | e2] w2].
  - destruct (__exit__ None w2) as [[[] | e3] w3]; discriminate.
  - destruct (__exit__ (Some e2) w2) as [[[] | e3] w3]; discriminate.
Qed.

(** ** The order of the log *)

Lemma spec_trim_suffix (p : Z) (q : list Z) :
  exists removed, q = removed ++ spec_trim p q.
Proof.
  induction q as [| x q IH]; [exists []; reflexivity |].
  cbn [spec_trim]. destruct (last (x :: q) x - x >=? p).
  - destruct IH as (removed & Heq). exists (x :: removed).
    simpl. f_equal. exact Heq.
  - exists []. reflexivity.
Qed.

Lemma nondecreasing_le (clock : nat -> Z) (n m : nat) :
  nondecreasing clock -> (n <= m)%nat -> clock n <= clock m.
Proof.
  intros Hmono Hle. induction Hle as [| m Hle IH]; [lia |].
  specialize (Hmono m). lia.
Qed.

Lemma enter_reads (w : World) :
  (reads w <= reads (snd (__enter__ w)))%nat
  /\ time_source (snd (__enter__ w)) = time_source w.
Proof.
  destruct (enter_cases w)
    as [[_ Hrun] | [(e & _ & Hrun) | (until & secs & _ & Hrun)]];
    rewrite Hrun; simpl; split; try lia; reflexivity.
Qed.

Lemma exit_ordered (w : World) (exc : option exn) :
  time_source w (reads w) <= time_source w (S (reads w)) ->
  ordered w -> ordered (snd (__exit__ exc w)).
Proof.
  intros Hnext [Hchron Hpast]. rewrite exit_world.
  unfold ordered, spec_release. simpl.
  set (now := time_source w (reads w)) in *.
  set (q := calls (self w) ++ repeat now (Z.to_nat (consume (self w)))).
  assert (Hq : chronological q)
    by (apply chronological_app_repeat; assumption).
  assert (Hall : Forall (fun t => t <= now) q).
  { apply Forall_app. split; [exact Hpast |].
    apply Forall_forall. intros y Hy. apply repeat_spec in Hy. lia. }
  destruct (spec_trim_suffix (period (self w)) q) as (removed & Heq).
  split.
  - apply (chronological_suffix removed). rewrite <- Heq. exact Hq.
  - rewrite Heq in Hall. apply Forall_app in Hall. destruct Hall as [_ Hk].
    eapply Forall_impl; [| exact Hk]. simpl. intros t Ht. lia.
Qed.

Lemma run_api_ordered (c : api_call) (w : World) :
  nondecreasing (time_source w) ->
  ordered w ->
  ordered (snd (run_api c w))
  /\ time_source (snd (run_api c w)) = time_source w.
Proof.
  intros Hmono Hord.
  destruct c as [| exc | value | |]; simpl run_api.
  - destruct (enter_reads w) as [Hreads Hsrc]. split; [| exact Hsrc].
    destruct Hord as [Hchron Hpast]. unfold ordered.
    rewrite enter_self, Hsrc. split; [exact Hchron |].
    eapply Forall_impl; [| exact Hpast]. simpl. intros t Ht.
    pose proof (nondecreasing_le _ _ _ Hmono Hreads). lia.
  - split; [apply exit_ordered; [apply Hmono | exact Hord] |].
    rewrite exit_world. reflexivity.
  - destruct (Z.lt_ge_cases value 1) as [Hlt | Hge].
    + rewrite (setter_rejects w value Hlt). split; [exact Hord | reflexivity].
    + rewrite (setter_accepts w value Hge). split; [exact Hord | reflexivity].
  - split; [exact Hord | reflexivity].
  - split; [exact Hord | reflexivity].
Qed.

(** X12.  Under a clock that never goes back, the log stays in
    chronological order, and not ahead of the clock, through any sequence
    of method calls, whatever their outcomes. *)
Theorem log_stays_chronological (cs : list api_call) (w : World) :
  nondecreasing (time_source w) ->
  ordered w ->
  chronological (calls (self (run_calls cs w)))
  /\ Forall (fun t => t <= time_source w (reads (run_calls cs w)))
       (calls (self (run_calls cs w))).
Proof.
  revert w. induction cs as [| c cs IH]; intros w Hmono Hord.
  - exact Hord.
  - simpl run_calls.
    destruct (run_api_ordered c w Hmono Hord) as [Hord' Hsrc].
    rewrite <- Hsrc. apply IH; [rewrite Hsrc; exact Hmono | exact Hord'].
Qed.

Lemma log_stays_chronological_witness :
  let w := boot (mkRateLimiter [] 10 2 None 1) (fun n => Z.of_nat n) in
  let cs := [CallEnter; CallExit None; CallSetConsume 2; CallEnter;
             CallExit (Some (Raised 1))] in
  chronological (calls (self (run_calls cs w))).
Proof.
  intros w cs.
  refine (proj1 (log_stays_chronological cs w _ _)).
  - intros n. simpl. lia.
  - split; [constructor | constructor].
Defined.

(** ** One thread and an honest clock *)

Lemma filter_keeps_all (f : Z -> bool) (q : list Z) :
  Forall (fun t => f t = true) q -> filter f q = q.
Proof.
  induction 1 as [| x q Hx _ IH]; [reflexivity |].
  simpl. rewrite Hx, IH. reflexivity.
Qed.

(** On a chronological log the trim loop is a filter: it keeps the
    entries less than [p] before the newest one. *)
Lemma spec_trim_filter (p newest : Z) (q : list Z) :
  0 < p ->
  chronological q ->
  (q <> [] -> last q 0 = newest) ->
  spec_trim p q = filter (fun t => newest - t <? p) q.
Proof.
  intros Hp. induction q as [| x q IH]; intros Hchron Hlast; [reflexivity |].
  apply StronglySorted_inv in Hchron. destruct Hchron as [Hchron Hx].
  assert (Hn : last (x :: q) x = newest).
  { rewrite (last_indep (x :: q) x 0) by discriminate.
    apply Hlast. discriminate. }
  cbn [spec_trim filter]. rewrite Hn.
  destruct (Z.geb_spec (newest - x) p) as [Hge | Hlt].
  - destruct (Z.ltb_spec (newest - x) p); [lia |].
    assert (Hq : q <> []) by (intros ->; simpl in Hn; lia).
    apply IH; [exact Hchron |].
    intros _. rewrite <- (last_cons_nonempty x q 0 Hq). apply Hlast. discriminate.
  - destruct (Z.ltb_spec (newest - x) p); [| lia].
    f_equal. symmetry. apply filter_keeps_all.
    eapply Forall_impl; [| exact Hx]. simpl. intros t Ht.
    destruct (Z.ltb_spec (newest - t) p); [reflexivity | lia].
Qed.

Lemma count_occ_filter_kept (f : Z -> bool) (q : list Z) (t : Z) :
  f t = true -> count_occ Z.eq_dec (filter f q) t = count_occ Z.eq_dec q t.
Proof.
  intros Hf. induction q as [| x q IH]; [reflexivity |].
  simpl. destruct (f x) eqn:Ex.
  - simpl. destruct (Z.eq_dec x t); rewrite IH; reflexivity.
  - destruct (Z.eq_dec x t) as [-> |]; [congruence | exact IH].
Qed.

Lemma filter_drops_group (f : Z -> bool) (q : list Z) (t : Z) :
  f t = false ->
  (List.length (filter f q) + count_occ Z.eq_dec q t <= List.length q)%nat.
Proof.
  intros Hf. induction q as [| x q IH]; [apply Nat.le_refl |].
  simpl. destruct (Z.eq_dec x t) as [-> | Hne].
  - rewrite Hf. lia.
  - destruct (f x); simpl; lia.
Qed.

Lemma last_in_past (q : list Z) (bound : Z) :
  Forall (fun t => t <= bound) q -> q <> [] -> last q 0 <= bound.
Proof.
  intros Hall Hq.
  destruct (exists_last Hq) as (q' & x & ->).
  rewrite last_last. apply Forall_app in Hall. destruct Hall as [_ Hx].
  inversion Hx; assumption.
Qed.

(** The release of a steady limiter, when either the admission check
    passed or the oldest entry has left the window. *)
Lemma exit_keeps_steady (w : World) (exc : option exn) :
  let s := self w in
  let now := time_source w (reads w) in
  steady w ->
  now <= time_source w (S (reads w)) ->
  (~ over_capacity s \/ (calls s <> [] /\ period s <= now - hd 0 (calls s))) ->
  fst (__exit__ exc w) = Ok tt /\ steady (snd (__exit__ exc w)).
Proof.
  intros s now (Hconf & Hfit & Hord & Hcap & Hgrp) Hnext Hroom.
  destruct Hconf as (Hp & Hmc & Hc).
  split; [apply exit_returns; exact Hp |].
  pose proof (exit_ordered w exc Hnext Hord) as Hord'.
  destruct Hord as [Hchron Hpast].
  unfold steady. split; [| split; [| split; [exact Hord' |]]].
  { rewrite exit_world. exact (conj Hp (conj Hmc Hc)). }
  { rewrite exit_world. exact Hfit. }
  rewrite exit_world. unfold within_capacity, spec_release. simpl.
  fold s now. fold s in Hp, Hmc, Hc, Hfit, Hcap, Hgrp, Hchron.
  fold s now in Hpast.
  destruct (Z.to_nat (consume s)) as [| k] eqn:Hk; [lia |].
  set (q := calls s ++ repeat now (S k)).
  assert (Hq : chronological q)
    by (apply chronological_app_repeat; assumption).
  assert (Hlast : q <> [] -> last q 0 = now)
    by (intros _; apply last_app_repeat).
  rewrite (spec_trim_filter (period s) now q Hp Hq Hlast).
  set (fresh := fun t => now - t <? period s).
  assert (Hlenq : Z.of_nat (List.length q)
                  = Z.of_nat (List.length (calls s)) + consume s).
  { unfold q. rewrite length_app, repeat_length. lia. }
  assert (Hgq : grouped (consume s) q).
  { intros t Ht. unfold q in *. rewrite count_occ_app.
    apply in_app_or in Ht. destruct Ht as [Ht | Ht].
    - specialize (Hgrp t Ht). lia.
    - apply repeat_spec in Ht. subst t.
      rewrite (count_occ_repeat_eq Z.eq_dec (S k) (eq_refl now)). lia. }
  split.
  - destruct Hroom as [Hn | [Hne Hold]].
    + pose proof (filter_length_le fresh q). unfold over_capacity in Hn. lia.
    + destruct (calls s) as [| t0 rest] eqn:Hcalls; [contradiction |].
      simpl in Hold.
      assert (Hdrop : fresh t0 = false).
      { unfold fresh. destruct (Z.ltb_spec (now - t0) (period s)); [lia | reflexivity]. }
      pose proof (filter_drops_group fresh q t0 Hdrop) as Hlen.
      assert (Hin : In t0 q) by (unfold q; simpl; left; reflexivity).
      specialize (Hgq t0 Hin).
      unfold within_capacity in Hcap. rewrite Hcalls in Hcap. lia.
  - intros t Ht. apply filter_In in Ht. destruct Ht as [Hin Hf].
    rewrite (count_occ_filter_kept fresh q t Hf). apply Hgq. exact Hin.
Qed.

Lemma cycle_keeps_steady (w : World) (exc : option exn) :
  steady w ->
  nondecreasing (time_source w) ->
  sleep_honoured w ->
  fst (cycle exc w) = Ok tt
  /\ steady (snd (cycle exc w))
  /\ time_source (snd (cycle exc w)) = time_source w
  /\ max_calls (self (snd (cycle exc w))) = max_calls (self w).
Proof.
  intros Hsteady Hmono Hsleep.
  pose proof Hsteady as (Hconf & Hfit & [Hchron Hpast] & Hcap & Hgrp).
  destruct Hconf as (Hp & Hmc & Hc).
  unfold cycle, bind.
  destruct (over_capacity_dec (self w)) as [Ho | Hn].
  - destruct (math_ceil_div_fits (consume (self w)) (max_calls (self w)))
      as [cycles Hfloat]; [lia |].
    pose proof (enter_blocks w cycles Ho Hfloat) as Hrun. cbv zeta in Hrun.
    rewrite Hrun.
    match goal with
    | |- context [__exit__ exc ?x] => set (w1 := x)
    end.
    assert (Hne : calls (self w) <> []).
    { intros Hnil. unfold over_capacity in Ho. rewrite Hnil in Ho.
      simpl in Ho. lia. }
    assert (Hcyc : - (- consume (self w) / max_calls (self w)) = 1).
    { pose proof (ceil_div_is_ceiling (consume (self w)) (max_calls (self w)) Hmc)
        as Hceil. cbv zeta in Hceil. nia. }
    specialize (Hsleep Ho). cbv zeta in Hsleep. rewrite Hcyc in Hsleep.
    unfold _timespan in Hsleep. rewrite timespan_newest_oldest in Hsleep.
    pose proof (last_in_past _ _ Hpast Hne) as Hlast.
    assert (Hsteady1 : steady w1).
    { unfold steady, ordered, w1. simpl.
      repeat split; try assumption.
      eapply Forall_impl; [| exact Hpast]. simpl. intros t Ht.
      pose proof (Hmono (reads w)). pose proof (Hmono (S (reads w))). lia. }
    destruct (exit_keeps_steady w1 exc Hsteady1) as [Hok Hst].
    + apply Hmono.
    + right. unfold w1. simpl. split; [exact Hne | lia].
    + split; [exact Hok |]. split; [exact Hst |].
      rewrite exit_world. split; reflexivity.
  - rewrite (enter_admits w Hn).
    match goal with
    | |- context [__exit__ exc ?x] => set (w1 := x)
    end.
    assert (Hsteady1 : steady w1) by exact Hsteady.
    destruct (exit_keeps_steady w1 exc Hsteady1) as [Hok Hst].
    + apply Hmono.
    + left. exact Hn.
    + split; [exact Hok |]. split; [exact Hst |].
      rewrite exit_world. split; reflexivity.
Qed.

Lemma sequential_steady (k : nat) (w : World) :
  steady w ->
  nondecreasing (time_source w) ->
  (forall j : nat, (j < k)%nat -> sleep_honoured (sequential j w)) ->
  steady (sequential k w)
  /\ time_source (sequential k w) = time_source w
  /\ max_calls (self (sequential k w)) = max_calls (self w).
Proof.
  intros Hsteady Hmono.
  induction k as [| k IH]; intros Hsleep.
  - split; [exact Hsteady | split; reflexivity].
  - destruct IH as (Hst & Hsrc & Hmax).
    { intros j Hj. apply Hsleep. lia. }
    assert (Hmono' : nondecreasing (time_source (sequential k w)))
      by (rewrite Hsrc; exact Hmono).
    destruct (cycle_keeps_steady (sequential k w) None Hst Hmono'
                (Hsleep k (Nat.lt_succ_diag_r k)))
      as (_ & Hst' & Hsrc' & Hmax').
    simpl sequential. split; [exact Hst' |].
    split; [rewrite Hsrc'; exact Hsrc | rewrite Hmax'; exact Hmax].
Qed.

(** X13.  One thread, a weight that fits the capacity, a clock that never
    goes back and honours the sleeps: starting from a log within capacity
    (an empty one, say), after any number of [with limiter:] uses the log
    holds at most [max_calls] entries, in chronological order, and every
    use has returned normally.  The limit is kept. *)
Theorem sequential_use_keeps_the_limit (k : nat) (w : World) :
  steady w ->
  nondecreasing (time_source w) ->
  (forall j : nat, (j < k)%nat -> sleep_honoured (sequential j w)) ->
  Z.of_nat (List.length (calls (self (sequential k w)))) <= max_calls (self w)
  /\ chronological (calls (self (sequential k w)))
  /\ (forall j : nat, (j < k)%nat ->
        fst (cycle None (sequential j w)) = Ok tt).
Proof.
  intros Hsteady Hmono Hsleep.
  destruct (sequential_steady k w Hsteady Hmono Hsleep) as (Hst & _ & Hmax).
  destruct Hst as (_ & _ & [Hchron _] & Hcap & _).
  unfold within_capacity in Hcap. rewrite Hmax in Hcap.
  split; [exact Hcap |]. split; [exact Hchron |].
  intros j Hj.
  destruct (sequential_steady j w Hsteady Hmono) as (Hst & Hsrc & _).
  { intros i Hi. apply Hsleep. lia. }
  assert (Hmono' : nondecreasing (time_source (sequential j w)))
    by (rewrite Hsrc; exact Hmono).
  apply (cycle_keeps_steady (sequential j w) None Hst Hmono' (Hsleep j Hj)).
Qed.

Lemma sequential_use_keeps_the_limit_witness :
  let w := boot (mkRateLimiter [] 30 2 None 1) (fun n => 10 * Z.of_nat n) in
  Z.of_nat (List.length (calls (self (sequential 4 w)))) <= 2.
Proof.
  intro w.
  refine (proj1 (sequential_use_keeps_the_limit 4 w _ _ _)).
  - unfold steady, configured, ordered, within_capacity, grouped, consume.
    simpl. repeat split; try lia; try constructor.
  - intros n. change (10 * Z.of_nat n <= 10 * Z.of_nat (S n)). lia.
  - intros j Hj. unfold sleep_honoured. cbv zeta. intros Ho.
    destruct j as [| [| [| [| j]]]]; [| | | | lia];
      first [ vm_compute in Ho; discriminate Ho
            | clear Ho; vm_compute; intros Hgt; discriminate Hgt ].
Defined.

(** X14.  On a limiter with a positive [period] and [consume >= 1] whose
    log is in chronological order and not ahead of the clock, [__exit__] is the
    sliding window itself: the new log is made of the old entries less
    than [period] before the timestamp read, in their order, followed by
    the [consume] entries just appended. *)
Theorem exit_is_the_sliding_window (w : World) (exc : option exn) :
  let s := self w in
  let now := time_source w (reads w) in
  0 < period s ->
  1 <= consume s ->
  ordered w ->
  calls (self (snd (__exit__ exc w))) =
    filter (fun t => now - t <? period s) (calls s)
      ++ repeat now (Z.to_nat (consume s)).
Proof.
  intros s now Hp Hc [Hchron Hpast].
  rewrite exit_world. unfold spec_release. simpl. fold s now.
  fold s now in Hpast. fold s in Hchron.
  destruct (Z.to_nat (consume s)) as [| k] eqn:Hk; [lia |].
  assert (Hq : chronological (calls s ++ repeat now (S k)))
    by (apply chronological_app_repeat; assumption).
  rewrite (spec_trim_filter (period s) now _ Hp Hq
             (fun _ => last_app_repeat (calls s) now 0 k)).
  rewrite filter_app. f_equal.
  apply filter_keeps_all. apply Forall_forall. intros t Ht.
  apply repeat_spec in Ht. subst t.
  destruct (Z.ltb_spec (now - now) (period s)); [reflexivity | lia].
Qed.

Lemma exit_is_the_sliding_window_witness :
  let w := boot (mkRateLimiter [0; 3; 8] 10 5 None 2) (fun _ => 12) in
  calls (self (snd (__exit__ None w))) = [3; 8] ++ [12; 12].
Proof.
  intro w.
  apply (exit_is_the_sliding_window w None).
  - simpl. lia.
  - unfold consume. simpl. lia.
  - split; simpl; unfold chronological; repeat constructor; lia.
Defined.

(** ** Limiters that [__init__] would have refused *)

Lemma Forall_last (P : Z -> Prop) (q : list Z) (d : Z) :
  Forall P q -> q <> [] -> P (last q d).
Proof.
  intros Hall Hq.
  destruct (exists_last Hq) as (q' & x & ->).
  rewrite last_last. apply Forall_app in Hall. destruct Hall as [_ Hx].
  inversion Hx; assumption.
Qed.

Lemma popleft_while_nonpositive_period (p : Z) (q : list Z) :
  p <= 0 ->
  chronological q ->
  popleft_while p q = Raise (IndexError "pop from an empty deque").
Proof.
  intros Hp. induction q as [| x q IH]; intros Hchron.
  - simpl. destruct (Z.geb_spec 0 p); [reflexivity | lia].
  - apply StronglySorted_inv in Hchron. destruct Hchron as [Hchron Hx].
    cbn [popleft_while].
    assert (Hspan : 0 <= timespan_of (x :: q)).
    { unfold timespan_of. destruct q as [| y q]; [simpl; lia |].
      rewrite (last_cons_nonempty x (y :: q) x) by discriminate.
      pose proof (Forall_last (Z.le x) (y :: q) x Hx) as Hl.
      assert (x <= last (y :: q) x) by (apply Hl; discriminate). lia. }
    destruct (Z.geb_spec (timespan_of (x :: q)) p); [| lia].
    apply IH. exact Hchron.
Qed.

(** X15.  Why [__init__] refuses [period <= 0]: on a limiter whose
    [period] is not positive and whose log is in chronological order, the
    trim loop of [__exit__] pops every entry, the ones just appended
    included, and then pops the empty deque: [__exit__] raises
    [IndexError], with the lock released and the log empty. *)
Theorem exit_with_nonpositive_period_raises (w : World) (exc : option exn) :
  period (self w) <= 0 ->
  ordered w ->
  __exit__ exc w =
    (Raise (IndexError "pop from an empty deque"),
     mkWorld (set_calls [] (self w)) (time_source w) (S (reads w))
       (trace w ++ [LockAcquire; LockRelease])).
Proof.
  intros Hp [Hchron Hpast].
  pose proof (exit_run w exc) as Hrun. cbv zeta in Hrun.
  rewrite popleft_while_nonpositive_period in Hrun.
  - exact Hrun.
  - exact Hp.
  - apply chronological_app_repeat; assumption.
Qed.

Lemma exit_with_nonpositive_period_raises_witness :
  let w := boot (mkRateLimiter [1; 2] 0 2 None 1) (fun _ => 5) in
  fst (__exit__ None w) = Raise (IndexError "pop from an empty deque")
  /\ calls (self (snd (__exit__ None w))) = [].
Proof.
  intro w.
  assert (H : __exit__ None w =
            (Raise (IndexError "pop from an empty deque"),
             mkWorld (set_calls [] (self w)) (time_source w) (S (reads w))
               (trace w ++ [LockAcquire; LockRelease]))).
  { apply exit_with_nonpositive_period_raises.
    - simpl. lia.
    - split; simpl; unfold chronological; repeat constructor; lia. }
  rewrite H. split; reflexivity.
Defined.

(** X16.  Why [__init__] refuses [max_calls <= 0]: on a limiter whose
    [max_calls] is 0 and whose [consume] is at least 1, every [__enter__]
    takes the blocking branch and raises [ZeroDivisionError] on
    [consume / max_calls], before any read of the clock, any callback and
    any sleep; the lock is released and the limiter is as before. *)
Theorem enter_with_zero_capacity_raises (w : World) :
  max_calls (self w) = 0 ->
  1 <= consume (self w) ->
  __enter__ w =
    (Raise (ZeroDivisionError "division by zero"),
     mkWorld (self w) (time_source w) (reads w)
       (trace w ++ [LockAcquire; LockRelease])).
Proof.
  intros Hz Hc. apply enter_zero_division; [| exact Hz].
  unfold over_capacity. lia.
Qed.

Lemma enter_with_zero_capacity_raises_witness :
  let w := boot (mkRateLimiter [] 10 0 (Some (mkCallback 3 true)) 1)
             (fun _ => 5) in
  fst (__enter__ w) = Raise (ZeroDivisionError "division by zero").
Proof.
  intro w. rewrite (enter_with_zero_capacity_raises w).
  - reflexivity.
  - reflexivity.
  - unfold consume. simpl. lia.
Defined.
